(** * Yoga enum reflection utilities (yoga/enums/YogaEnums.h)

    A shallow embedding of the header's two configurations: the C++20
    one (concepts, [std::bit_width]) and the one selected by
    [APPLY_FIXES_FOR_CPP17] (enable_if, hand-written [cpp17_bit_width]).
    Template instantiation is modelled as a computation that either
    builds or fails with a diagnostic; run-time evaluation as a partial
    function. *)

From Stdlib Require Import ZArith Lia List Bool.
From stdpp Require Import base option list sorting gmap.

Local Open Scope Z_scope.

(** ** Integer types and conversions *)

Inductive Width := W8 | W16 | W32 | W64.

Definition bits (w : Width) : Z :=
  match w with W8 => 8 | W16 => 16 | W32 => 32 | W64 => 64 end.

Record IntType := { is_signed : bool; type_width : Width }.

Definition uint8_t : IntType := {| is_signed := false; type_width := W8 |}.
Definition int8_t : IntType := {| is_signed := true; type_width := W8 |}.
Definition uint16_t : IntType := {| is_signed := false; type_width := W16 |}.
Definition int32_t : IntType := {| is_signed := true; type_width := W32 |}.
Definition uint32_t : IntType := {| is_signed := false; type_width := W32 |}.

Definition modulus (T : IntType) : Z := 2 ^ bits (type_width T).

Definition min_value (T : IntType) : Z :=
  if is_signed T then - 2 ^ (bits (type_width T) - 1) else 0.

Definition max_value (T : IntType) : Z :=
  if is_signed T then 2 ^ (bits (type_width T) - 1) - 1 else 2 ^ bits (type_width T) - 1.

Definition in_range (T : IntType) (z : Z) : Prop :=
  min_value T <= z <= max_value T.

Definition in_rangeb (T : IntType) (z : Z) : bool :=
  (min_value T <=? z) && (z <=? max_value T).

(** [static_cast<T>(z)] for an integer [z]: the value congruent to [z]
    modulo [2^bits] that [T] can represent. *)
Definition static_cast (T : IntType) (z : Z) : Z :=
  (z - min_value T) mod modulus T + min_value T.

(** Integral promotion: types narrower than [int] are computed in [int]. *)
Definition promote (T : IntType) : IntType :=
  match type_width T with
  | W8 | W16 => int32_t
  | _ => T
  end.

(** [a + b] in the type [T] (already promoted): unsigned arithmetic wraps,
    signed overflow has no defined result. *)
Definition add_in (T : IntType) (a b : Z) : option Z :=
  if is_signed T
  then (if in_rangeb T (a + b) then Some (a + b) else None)
  else Some (static_cast T (a + b)).

(** ** Outcome of instantiating a template *)

Inductive Diagnostic :=
| ConstraintFailure   (* a concept or enable_if condition is not met *)
| NoSpecialization    (* the unspecialized ordinalCount was selected *)
| NoMatchingFunction. (* overload resolution found no candidate *)

Inductive Build (A : Type) :=
| Built (a : A)
| BuildFails (d : Diagnostic).
Arguments Built {A} a.
Arguments BuildFails {A} d.

#[global] Instance Build_bind : MBind Build := fun _ _ f m =>
  match m with
  | Built a => f a
  | BuildFails d => BuildFails d
  end.

(** ** Types seen by the templates *)

(** A type argument is either not an enumeration, or an enumeration with
    a fixed underlying type together with the explicit specialization of
    [ordinalCount] written for it, if any ([Some n]: it returns [n]). *)
Inductive CppType :=
| NotEnum
| EnumClass (underlying : IntType) (count : option Z).

Definition is_enum_v (t : CppType) : bool :=
  match t with NotEnum => false | EnumClass _ _ => true end.

Definition underlying_type_t (t : CppType) : Build IntType :=
  match t with
  | NotEnum => BuildFails ConstraintFailure
  | EnumClass u _ => Built u
  end.

Definition specialization (t : CppType) : option Z :=
  match t with NotEnum => None | EnumClass _ c => c end.

(** A value of an enumeration type: a value of its underlying type. *)
Record EnumT := Enumerator { value_of : Z }.

#[global] Instance EnumT_eq_dec : EqDecision EnumT.
Proof. solve_decision. Defined.

(** [static_cast<EnumT>(z)]: convert to the fixed underlying type first. *)
Definition static_cast_enum (u : IntType) (z : Z) : EnumT :=
  Enumerator (static_cast u z).

(** [EnumT{}]: value-initialization. *)
Definition value_init : EnumT := Enumerator 0.

(** ** Library and compiler primitives *)

(** [std::bit_width]: only unsigned types take part in overload
    resolution; the result is the number of binary digits of [x]. *)
Definition binary_digits (x : Z) : Z :=
  match x with
  | Zpos p => Zpos (Pos.size p)
  | _ => 0
  end.

Definition std_bit_width (T : IntType) (x : Z) : Build Z :=
  if is_signed T then BuildFails NoMatchingFunction else Built (binary_digits x).

(** [_BitScanReverse(&index, mask)]: [mask] is an unsigned 32-bit value;
    [index] is the position of its highest set bit, unspecified for 0. *)
Definition BitScanReverse (x : Z) : option Z :=
  let mask := static_cast uint32_t x in
  if mask =? 0 then None else Some (Z.log2 mask).

(** [__builtin_clz(x)]: leading zero bits of the unsigned 32-bit [x],
    undefined for 0. *)
Definition builtin_clz (x : Z) : option Z :=
  let u := static_cast uint32_t x in
  if u =? 0 then None else Some (31 - Z.log2 u).

Inductive Compiler := MSVC | GNUC.

(** Whether a call is evaluated as part of a constant expression. *)
Inductive Evaluation := ConstantEvaluated | RunTime.

Definition is_constant_evaluated (ev : Evaluation) : bool :=
  match ev with ConstantEvaluated => true | RunTime => false end.

(** ** Iteration markers shared by both configurations *)

(** The local [struct Iterator { EnumT e{}; ... }]. *)
Record Iterator := { e : EnumT }.

#[global] Instance Iterator_eq_dec : EqDecision Iterator.
Proof. solve_decision. Defined.

(** The local [struct Range]: it has no data members; its member functions
    refer to the template argument, recorded here as the underlying type
    and the value of [ordinalCount<EnumT>()]. *)
Record Range := { range_underlying : IntType; range_count : Z }.

(** [a == b] and [a != b] on values of an enumeration type. *)
Definition enum_eq (a b : EnumT) : bool := value_of a =? value_of b.
Definition enum_ne (a b : EnumT) : bool := negb (value_of a =? value_of b).

(** The range-based [for] statement over markers [it] and [end_]:
    [for (; it != end_; ++it) { yield *it; }]. *)
Section RangeFor.
Variable operator_ne : Iterator -> Iterator -> bool.
Variable operator_deref : Iterator -> EnumT.
Variable operator_inc : Iterator -> option Iterator.

Fixpoint range_for (fuel : nat) (it end_ : Iterator) : option (list EnumT) :=
  match fuel with
  | O => None
  | S fuel' =>
      if operator_ne it end_ then
        let x := operator_deref it in
        it' ← operator_inc it;
        rest ← range_for fuel' it' end_;
        Some (x :: rest)
      else Some []
  end.
End RangeFor.

(** ** The C++20 configuration ([APPLY_FIXES_FOR_CPP17] not defined) *)

Module Primary.

Definition Enumeration (t : CppType) : bool := is_enum_v t.

(** Declared, never defined: only explicit specializations have a body. *)
Definition ordinalCount (t : CppType) : Build Z :=
  if Enumeration t then
    match specialization t with
    | Some n => Built n
    | None => BuildFails NoSpecialization
    end
  else BuildFails ConstraintFailure.

(** [concept HasOrdinality = (ordinalCount<EnumT>() > 0)]: a substitution
    failure in the expression makes the concept false; an expression
    that is not a constant expression is an error. *)
Definition HasOrdinality (t : CppType) : Build bool :=
  match ordinalCount t with
  | Built n => Built (0 <? n)
  | BuildFails ConstraintFailure => Built false
  | BuildFails d => BuildFails d
  end.

Definition bitCount (t : CppType) : Build Z :=
  ok ← HasOrdinality t;
  if (ok : bool) then
    n ← ordinalCount t;
    u ← underlying_type_t t;
    std_bit_width u (static_cast u (n - 1))
  else BuildFails ConstraintFailure.

Definition to_underlying (x : EnumT) : Z := value_of x.

Definition operator_deref (it : Iterator) : EnumT := e it.

Definition operator_inc (u : IntType) (it : Iterator) : option Iterator :=
  next ← add_in (promote u) (to_underlying (e it)) 1;
  Some {| e := static_cast_enum u next |}.

(** Defaulted comparisons: member-wise [==], and [!=] as its negation. *)
Definition operator_eq (a b : Iterator) : bool := enum_eq (e a) (e b).
Definition operator_ne (a b : Iterator) : bool := negb (operator_eq a b).

Definition begin (r : Range) : Iterator := {| e := value_init |}.
Definition end_ (r : Range) : Iterator :=
  {| e := static_cast_enum (range_underlying r) (range_count r) |}.

Definition ordinals (t : CppType) : Build Range :=
  ok ← HasOrdinality t;
  if (ok : bool) then
    n ← ordinalCount t;
    u ← underlying_type_t t;
    Built {| range_underlying := u; range_count := n |}
  else BuildFails ConstraintFailure.

(** [for (auto x : r) ...]: the values bound to [x], in order. *)
Definition iterate (fuel : nat) (r : Range) : option (list EnumT) :=
  range_for operator_ne operator_deref (operator_inc (range_underlying r))
    fuel (begin r) (end_ r).

End Primary.

(** ** The C++17 configuration ([APPLY_FIXES_FOR_CPP17] defined) *)

Module Shim.

Definition IsEnumeration (t : CppType) : bool := is_enum_v t.

(** [= delete]: only explicit specializations can be called. *)
Definition ordinalCount (t : CppType) : Build Z :=
  if IsEnumeration t then
    match specialization t with
    | Some n => Built n
    | None => BuildFails NoSpecialization
    end
  else BuildFails ConstraintFailure.

Definition HasOrdinality (t : CppType) : Build bool :=
  if IsEnumeration t then
    n ← ordinalCount t;
    Built (0 <? n)
  else BuildFails ConstraintFailure.

(** [while (x) { width++; x >>= 1; }] followed by [return width]. *)
Fixpoint shift_and_count (fuel : nat) (T : IntType) (width x : Z) : option Z :=
  match fuel with
  | O => None
  | S fuel' =>
      if x =? 0 then Some width
      else shift_and_count fuel' T (width + 1) (static_cast T (Z.shiftr x 1))
  end.

Definition cpp17_bit_width
    (cc : Compiler) (ev : Evaluation) (fuel : nat) (T : IntType) (x : Z)
  : option Z :=
  if x =? 0 then Some 0
  else
    match cc with
    | MSVC =>
        if is_constant_evaluated ev then shift_and_count fuel T 0 x
        else
          index ← BitScanReverse x;
          Some (static_cast int32_t (index + 1))
    | GNUC =>
        if is_constant_evaluated ev then shift_and_count fuel T 0 x
        else if x =? 0 then Some 0 else builtin_clz x
    end.

Definition bitCount
    (cc : Compiler) (ev : Evaluation) (fuel : nat) (t : CppType)
  : Build (option Z) :=
  ok ← HasOrdinality t;
  if (ok : bool) then
    n ← ordinalCount t;
    u ← underlying_type_t t;
    Built (cpp17_bit_width cc ev fuel u (static_cast u (n - 1)))
  else BuildFails ConstraintFailure.

Definition to_underlying (x : EnumT) : Z := value_of x.

Definition operator_deref (it : Iterator) : EnumT := e it.

Definition operator_inc (u : IntType) (it : Iterator) : option Iterator :=
  next ← add_in (promote u) (to_underlying (e it)) 1;
  Some {| e := static_cast_enum u next |}.

Definition operator_eq (a b : Iterator) : bool := enum_eq (e a) (e b).
Definition operator_ne (a b : Iterator) : bool := enum_ne (e a) (e b).

Definition begin (r : Range) : Iterator := {| e := value_init |}.
Definition end_ (r : Range) : Iterator :=
  {| e := static_cast_enum (range_underlying r) (range_count r) |}.

(** Constrained by [IsEnumeration] only; the body calls
    [ordinalCount<EnumT>()]. *)
Definition ordinals (t : CppType) : Build Range :=
  if IsEnumeration t then
    n ← ordinalCount t;
    u ← underlying_type_t t;
    Built {| range_underlying := u; range_count := n |}
  else BuildFails ConstraintFailure.

Definition iterate (fuel : nat) (r : Range) : option (list EnumT) :=
  range_for operator_ne operator_deref (operator_inc (range_underlying r))
    fuel (begin r) (end_ r).

End Shim.

(** ** The build-time switch *)

Inductive Configuration := Cpp20 | Cpp17.

Definition ordinalCount (cfg : Configuration) : CppType -> Build Z :=
  match cfg with Cpp20 => Primary.ordinalCount | Cpp17 => Shim.ordinalCount end.

Definition HasOrdinality (cfg : Configuration) : CppType -> Build bool :=
  match cfg with Cpp20 => Primary.HasOrdinality | Cpp17 => Shim.HasOrdinality end.

Definition bitCount
    (cfg : Configuration) (cc : Compiler) (ev : Evaluation) (fuel : nat)
    (t : CppType) : Build (option Z) :=
  match cfg with
  | Cpp20 => w ← Primary.bitCount t; Built (Some w)
  | Cpp17 => Shim.bitCount cc ev fuel t
  end.

Definition to_underlying (cfg : Configuration) : EnumT -> Z :=
  match cfg with Cpp20 => Primary.to_underlying | Cpp17 => Shim.to_underlying end.

Definition ordinals (cfg : Configuration) : CppType -> Build Range :=
  match cfg with Cpp20 => Primary.ordinals | Cpp17 => Shim.ordinals end.

Definition begin (cfg : Configuration) : Range -> Iterator :=
  match cfg with Cpp20 => Primary.begin | Cpp17 => Shim.begin end.

Definition end_ (cfg : Configuration) : Range -> Iterator :=
  match cfg with Cpp20 => Primary.end_ | Cpp17 => Shim.end_ end.

Definition operator_deref (cfg : Configuration) : Iterator -> EnumT :=
  match cfg with Cpp20 => Primary.operator_deref | Cpp17 => Shim.operator_deref end.

Definition operator_inc (cfg : Configuration) : IntType -> Iterator -> option Iterator :=
  match cfg with Cpp20 => Primary.operator_inc | Cpp17 => Shim.operator_inc end.

Definition operator_eq (cfg : Configuration) : Iterator -> Iterator -> bool :=
  match cfg with Cpp20 => Primary.operator_eq | Cpp17 => Shim.operator_eq end.

Definition operator_ne (cfg : Configuration) : Iterator -> Iterator -> bool :=
  match cfg with Cpp20 => Primary.operator_ne | Cpp17 => Shim.operator_ne end.

Definition iterate (cfg : Configuration) : nat -> Range -> option (list EnumT) :=
  match cfg with Cpp20 => Primary.iterate | Cpp17 => Shim.iterate end.

(** ** Iterator objects in storage

    [operator++] assigns to the member [e] of the object it is called on.
    A store maps the address of every live [Iterator] object to its
    current state; [begin()] and [end()] return by value, so each result
    is a new object. *)

Inductive Action :=
| Advance (a : nat)   (* ++it, for the object at address a *)
| Read (a : nat).     (* *it *)

Definition target (act : Action) : nat :=
  match act with Advance a => a | Read a => a end.

Section Storage.
Variable cfg : Configuration.
Variable u : IntType.

Definition new_object (it : Iterator) (s : gmap nat Iterator)
  : nat * gmap nat Iterator :=
  let a := fresh (dom s) in (a, <[a := it]> s).

Definition perform (s : gmap nat Iterator) (act : Action)
  : option (gmap nat Iterator * list EnumT) :=
  match act with
  | Advance a =>
      it ← s !! a;
      it' ← operator_inc cfg u it;
      Some (<[a := it']> s, [])
  | Read a =>
      it ← s !! a;
      Some (s, [operator_deref cfg it])
  end.

Fixpoint run (s : gmap nat Iterator) (acts : list Action)
  : option (gmap nat Iterator * list EnumT) :=
  match acts with
  | [] => Some (s, [])
  | act :: acts' =>
      '(s1, out1) ← perform s act;
      '(s2, out2) ← run s1 acts';
      Some (s2, out1 ++ out2)
  end.

(** The range-based [for] loop run on the object at address [a]. *)
Fixpoint consume (fuel : nat) (a : nat) (last : Iterator) (s : gmap nat Iterator)
  : option (gmap nat Iterator * list EnumT) :=
  match fuel with
  | O => None
  | S fuel' =>
      it ← s !! a;
      if operator_ne cfg it last then
        let x := operator_deref cfg it in
        it' ← operator_inc cfg u it;
        '(s', rest) ← consume fuel' a last (<[a := it']> s);
        Some (s', x :: rest)
      else Some (s, [])
  end.

End Storage.

(** ** Sample families *)

(** [enum class E : uint8_t { A, B, C, D, E }] declaring count 5, and a
    single-member family declaring count 1. *)
Definition five_members : CppType := EnumClass uint8_t (Some 5).
Definition one_member : CppType := EnumClass uint8_t (Some 1).

Definition five : Range := {| range_underlying := uint8_t; range_count := 5 |}.

(** Two marker objects, as returned by two calls of [begin]. *)
Definition two_markers : gmap nat Iterator :=
  <[1%nat := {| e := Enumerator 0 |}]> (<[0%nat := {| e := Enumerator 0 |}]> ∅).

(** * Properties *)

(** ** Integer conversions *)

Lemma modulus_pos T : 0 < modulus T.
Proof. unfold modulus. destruct T as [s []]; reflexivity. Qed.

Lemma min_value_nonpos T : min_value T <= 0.
Proof. destruct T as [[] []]; vm_compute; discriminate. Qed.

Lemma max_value_pos T : 0 < max_value T.
Proof. destruct T as [[] []]; reflexivity. Qed.

Lemma range_size T : max_value T - min_value T = modulus T - 1.
Proof. destruct T as [[] []]; reflexivity. Qed.

Lemma static_cast_id T z : in_range T z -> static_cast T z = z.
Proof.
  unfold in_range, static_cast. intros Hz.
  pose proof (range_size T) as Hsz.
  rewrite Z.mod_small by lia. lia.
Qed.

Lemma static_cast_in_range T z : in_range T (static_cast T z).
Proof.
  unfold in_range, static_cast.
  pose proof (range_size T) as Hsz.
  pose proof (Z.mod_pos_bound (z - min_value T) (modulus T) (modulus_pos T)).
  lia.
Qed.

Lemma in_rangeb_spec T z : in_rangeb T z = true <-> in_range T z.
Proof. unfold in_rangeb, in_range. rewrite andb_true_iff, !Z.leb_le. tauto. Qed.

Lemma in_range_halve T x : in_range T x -> in_range T (Z.shiftr x 1).
Proof.
  unfold in_range. intros Hx.
  pose proof (min_value_nonpos T). pose proof (max_value_pos T).
  rewrite Z.shiftr_div_pow2 by lia. change (2 ^ 1) with 2.
  pose proof (Z.div_mod x 2 ltac:(lia)).
  pose proof (Z.mod_pos_bound x 2 ltac:(lia)).
  lia.
Qed.

(** ** Bit width as a number *)

Lemma binary_digits_log2 x : 0 < x -> binary_digits x = Z.log2 x + 1.
Proof.
  destruct x as [|p|p]; try lia. intros _.
  destruct p; simpl; lia.
Qed.

Lemma binary_digits_nonneg x : 0 <= binary_digits x.
Proof. destruct x; simpl; lia. Qed.

Lemma binary_digits_halve x :
  0 < x -> binary_digits x = binary_digits (Z.shiftr x 1) + 1.
Proof.
  destruct x as [|p|p]; try lia. intros _.
  destruct p; simpl; lia.
Qed.

Lemma binary_digits_le_bits T x :
  0 <= x <= max_value T -> binary_digits x <= bits (type_width T).
Proof.
  intros [H0 Hmax].
  destruct (Z.eq_dec x 0) as [->|Hne]; [destruct T as [s []]; cbn; lia|].
  rewrite binary_digits_log2 by lia.
  assert (Z.log2 x < bits (type_width T)); [|lia].
  apply Z.log2_lt_pow2; [lia|].
  pose proof (range_size T) as Hsz. pose proof (min_value_nonpos T).
  unfold modulus in Hsz. lia.
Qed.

(** The bit width of [N - 1] is the ceiling of the binary logarithm
    of [N]. *)
Lemma binary_digits_pred_log2_up N :
  1 <= N -> binary_digits (N - 1) = Z.log2_up N.
Proof.
  intros HN. destruct (Z.eq_dec N 1) as [->|Hne]; [reflexivity|].
  rewrite binary_digits_log2 by lia.
  rewrite Z.log2_up_eqn by lia.
  replace (Z.pred N) with (N - 1) by lia. lia.
Qed.

Lemma binary_digits_pred_bounds N :
  2 <= N ->
  2 ^ (binary_digits (N - 1) - 1) < N <= 2 ^ binary_digits (N - 1).
Proof.
  intros HN. rewrite binary_digits_pred_log2_up by lia.
  pose proof (Z.log2_up_spec N ltac:(lia)) as H.
  replace (Z.pred (Z.log2_up N)) with (Z.log2_up N - 1) in H by lia. exact H.
Qed.

(** ** The shift-and-count loop *)

Lemma shift_and_count_value fuel : forall T width x,
  0 <= x -> in_range T x -> (Z.to_nat (binary_digits x) < fuel)%nat ->
  Shim.shift_and_count fuel T width x = Some (width + binary_digits x).
Proof.
  induction fuel as [|fuel IH]; intros T width x Hx Hr Hfuel; [lia|].
  simpl. destruct (x =? 0) eqn:Hz.
  - apply Z.eqb_eq in Hz. subst x. f_equal. simpl. lia.
  - apply Z.eqb_neq in Hz.
    rewrite static_cast_id by now apply in_range_halve.
    pose proof (binary_digits_halve x ltac:(lia)) as Hh.
    pose proof (binary_digits_nonneg (Z.shiftr x 1)).
    rewrite IH.
    + f_equal. lia.
    + apply Z.shiftr_nonneg. lia.
    + now apply in_range_halve.
    + lia.
Qed.

Lemma shift_and_count_diverges fuel : forall T width x,
  x < 0 -> in_range T x -> Shim.shift_and_count fuel T width x = None.
Proof.
  induction fuel as [|fuel IH]; intros T width x Hx Hr; [reflexivity|].
  simpl. destruct (x =? 0) eqn:Hz; [apply Z.eqb_eq in Hz; lia|].
  rewrite static_cast_id by now apply in_range_halve.
  apply IH; [|now apply in_range_halve].
  apply Z.shiftr_neg. exact Hx.
Qed.

Lemma halve_decreases x : 0 < x -> 0 <= Z.shiftr x 1 < x.
Proof.
  intros Hx. rewrite Z.shiftr_div_pow2 by lia. change (2 ^ 1) with 2.
  pose proof (Z.div_mod x 2 ltac:(lia)).
  pose proof (Z.mod_pos_bound x 2 ltac:(lia)). lia.
Qed.

(** C10: the loop of [cpp17_bit_width] returns exactly when its input is
    non-negative. Each iteration maps a positive [x] to a smaller
    non-negative value, so the loop ends; a negative [x] (possible only
    for a signed [T]) stays negative under the arithmetic shift and the
    loop never ends. *)
Theorem shift_and_count_terminates_iff T x :
  in_range T x ->
  ((exists fuel width, Shim.shift_and_count fuel T 0 x = Some width) <-> 0 <= x)
  /\ (0 < x -> 0 <= static_cast T (Z.shiftr x 1) < x)
  /\ (x < 0 -> static_cast T (Z.shiftr x 1) < 0)
  /\ (x < 0 -> forall fuel width, Shim.shift_and_count fuel T width x = None).
Proof.
  intros Hr. repeat split.
  - intros (fuel & width & Hrun).
    destruct (Z.lt_ge_cases x 0) as [Hneg|Hpos]; [|lia].
    rewrite shift_and_count_diverges in Hrun by assumption. discriminate.
  - intros Hx. exists (S (Z.to_nat (binary_digits x))), (0 + binary_digits x).
    apply shift_and_count_value; [assumption..|lia].
  - rewrite static_cast_id by now apply in_range_halve.
    now apply halve_decreases.
  - rewrite static_cast_id by now apply in_range_halve.
    now apply halve_decreases.
  - intros Hx. rewrite static_cast_id by now apply in_range_halve.
    now apply Z.shiftr_neg.
  - intros Hx fuel width. now apply shift_and_count_diverges.
Qed.

Lemma shift_and_count_terminates_iff_witness :
  ((exists fuel width, Shim.shift_and_count fuel int8_t 0 (-1) = Some width)
   <-> 0 <= -1)
  /\ (0 < -1 -> 0 <= static_cast int8_t (Z.shiftr (-1) 1) < -1)
  /\ (-1 < 0 -> static_cast int8_t (Z.shiftr (-1) 1) < 0)
  /\ (-1 < 0 -> forall fuel width,
        Shim.shift_and_count fuel int8_t width (-1) = None).
Proof.
  apply (shift_and_count_terminates_iff int8_t (-1)).
  unfold in_range. cbn. lia.
Defined.

(** ** The bit-width primitive of the C++17 configuration *)

Lemma cpp17_bit_width_constant_evaluated cc fuel T x :
  0 <= x -> in_range T x -> (64 < fuel)%nat ->
  Shim.cpp17_bit_width cc ConstantEvaluated fuel T x = Some (binary_digits x).
Proof.
  intros Hx Hr Hfuel. unfold Shim.cpp17_bit_width.
  destruct (x =? 0) eqn:Hz; [apply Z.eqb_eq in Hz; now subst|].
  assert (Hloop : Shim.shift_and_count fuel T 0 x = Some (binary_digits x)).
  { rewrite shift_and_count_value; [reflexivity|assumption..|].
    pose proof (binary_digits_le_bits T x ltac:(unfold in_range in Hr; lia)).
    pose proof (binary_digits_nonneg x).
    destruct T as [s []]; simpl in *; lia. }
  destruct cc; simpl; exact Hloop.
Qed.

Lemma static_cast_uint32 x : 0 <= x < 2 ^ 32 -> static_cast uint32_t x = x.
Proof. intros Hx. apply static_cast_id. unfold in_range. cbn. lia. Qed.

Lemma cpp17_bit_width_msvc_run_time fuel T x :
  0 <= x < 2 ^ 32 ->
  Shim.cpp17_bit_width MSVC RunTime fuel T x = Some (binary_digits x).
Proof.
  intros Hx. unfold Shim.cpp17_bit_width, BitScanReverse.
  destruct (x =? 0) eqn:Hz; [apply Z.eqb_eq in Hz; now subst|].
  apply Z.eqb_neq in Hz. simpl is_constant_evaluated. cbv iota.
  rewrite static_cast_uint32 by assumption.
  apply Z.eqb_neq in Hz. rewrite Hz. apply Z.eqb_neq in Hz. simpl.
  rewrite binary_digits_log2 by lia.
  assert (Z.log2 x < 32) by (apply Z.log2_lt_pow2; lia).
  pose proof (Z.log2_nonneg x).
  rewrite static_cast_id; [reflexivity|]. unfold in_range. cbn. lia.
Qed.

(** With GCC or Clang a run-time call returns the number of leading
    zero bits of the 32-bit operand. *)
Lemma cpp17_bit_width_gnuc_run_time fuel T x :
  0 < x < 2 ^ 32 ->
  Shim.cpp17_bit_width GNUC RunTime fuel T x = Some (32 - binary_digits x).
Proof.
  intros Hx. unfold Shim.cpp17_bit_width, builtin_clz.
  assert (Hz : (x =? 0) = false) by (apply Z.eqb_neq; lia).
  rewrite Hz. simpl is_constant_evaluated. cbv iota.
  rewrite static_cast_uint32 by lia. rewrite Hz.
  rewrite binary_digits_log2 by lia. f_equal. lia.
Qed.

Lemma cpp17_bit_width_gnuc_run_time_agrees fuel T x :
  0 < x < 2 ^ 32 ->
  Shim.cpp17_bit_width GNUC RunTime fuel T x = Some (binary_digits x)
  <-> binary_digits x = 16.
Proof.
  intros Hx. rewrite cpp17_bit_width_gnuc_run_time by assumption.
  split; [intros [= H]|intros ->; f_equal]; lia.
Qed.

(** ** bitCount *)

Lemma Primary_bitCount_value u N :
  is_signed u = false -> 1 <= N -> N - 1 <= max_value u ->
  Primary.bitCount (EnumClass u (Some N)) = Built (Z.log2_up N).
Proof.
  intros Hu HN Hfit. unfold Primary.bitCount, Primary.HasOrdinality. simpl.
  assert (Hpos : (0 <? N) = true) by (apply Z.ltb_lt; lia).
  rewrite Hpos. simpl. unfold std_bit_width. rewrite Hu.
  rewrite static_cast_id.
  - now rewrite binary_digits_pred_log2_up.
  - unfold in_range. pose proof (min_value_nonpos u). lia.
Qed.

Lemma Primary_bitCount_signed u N :
  is_signed u = true -> 1 <= N ->
  Primary.bitCount (EnumClass u (Some N)) = BuildFails NoMatchingFunction.
Proof.
  intros Hu HN. unfold Primary.bitCount, Primary.HasOrdinality. simpl.
  assert (Hpos : (0 <? N) = true) by (apply Z.ltb_lt; lia).
  rewrite Hpos. simpl. unfold std_bit_width. now rewrite Hu.
Qed.

Lemma Shim_bitCount_constant_evaluated cc fuel u N :
  1 <= N -> N - 1 <= max_value u -> (64 < fuel)%nat ->
  Shim.bitCount cc ConstantEvaluated fuel (EnumClass u (Some N))
  = Built (Some (Z.log2_up N)).
Proof.
  intros HN Hfit Hfuel. unfold Shim.bitCount, Shim.HasOrdinality. simpl.
  assert (Hpos : (0 <? N) = true) by (apply Z.ltb_lt; lia).
  rewrite Hpos. simpl.
  assert (Hr : in_range u (N - 1)).
  { unfold in_range. pose proof (min_value_nonpos u). lia. }
  rewrite static_cast_id by assumption.
  rewrite cpp17_bit_width_constant_evaluated by (assumption || lia).
  now rewrite binary_digits_pred_log2_up.
Qed.

Lemma Shim_bitCount_msvc_run_time fuel u N :
  1 <= N <= 2 ^ 31 -> N - 1 <= max_value u ->
  Shim.bitCount MSVC RunTime fuel (EnumClass u (Some N))
  = Built (Some (Z.log2_up N)).
Proof.
  intros HN Hfit. unfold Shim.bitCount, Shim.HasOrdinality. simpl.
  assert (Hpos : (0 <? N) = true) by (apply Z.ltb_lt; lia).
  rewrite Hpos. simpl.
  rewrite static_cast_id
    by (unfold in_range; pose proof (min_value_nonpos u); lia).
  rewrite cpp17_bit_width_msvc_run_time by lia.
  now rewrite binary_digits_pred_log2_up by lia.
Qed.

Lemma Shim_bitCount_gnuc_run_time fuel u N :
  2 <= N <= 2 ^ 31 -> N - 1 <= max_value u ->
  Shim.bitCount GNUC RunTime fuel (EnumClass u (Some N))
  = Built (Some (32 - Z.log2_up N)).
Proof.
  intros HN Hfit. unfold Shim.bitCount, Shim.HasOrdinality. simpl.
  assert (Hpos : (0 <? N) = true) by (apply Z.ltb_lt; lia).
  rewrite Hpos. simpl.
  rewrite static_cast_id
    by (unfold in_range; pose proof (min_value_nonpos u); lia).
  rewrite cpp17_bit_width_gnuc_run_time by lia.
  now rewrite binary_digits_pred_log2_up by lia.
Qed.

(** The counts 1..10000 with a 16-bit unsigned underlying type. *)
Lemma Primary_bitCount_tested_domain N :
  1 <= N <= 10000 ->
  Primary.bitCount (EnumClass uint16_t (Some N)) = Built (Z.log2_up N).
Proof.
  intros HN. apply Primary_bitCount_value; [reflexivity|lia|cbn; lia].
Qed.

Example Primary_bitCount_boundaries :
  map (fun N => Primary.bitCount (EnumClass uint16_t (Some N)))
      [1; 2; 3; 4; 5; 256; 257]
  = map Built [0; 1; 2; 2; 3; 8; 9].
Proof. reflexivity. Qed.

(** Where the two configurations agree on [bitCount]. *)
Lemma bitCount_configurations_agree cc ev fuel u N :
  is_signed u = false -> 1 <= N -> N - 1 <= max_value u -> (64 < fuel)%nat ->
  bitCount Cpp17 cc ConstantEvaluated fuel (EnumClass u (Some N))
  = bitCount Cpp20 cc ev fuel (EnumClass u (Some N))
  /\ (N <= 2 ^ 31 ->
      bitCount Cpp17 MSVC RunTime fuel (EnumClass u (Some N))
      = bitCount Cpp20 cc ev fuel (EnumClass u (Some N))).
Proof.
  intros Hu HN Hfit Hfuel. unfold bitCount.
  rewrite Primary_bitCount_value by assumption.
  rewrite Shim_bitCount_constant_evaluated by assumption.
  split; [reflexivity|]. intros Hmax.
  now rewrite Shim_bitCount_msvc_run_time by lia.
Qed.

Example five_members_scenario :
  ordinalCount Cpp20 five_members = Built 5
  /\ bitCount Cpp20 GNUC ConstantEvaluated 8 five_members = Built (Some 3)
  /\ bitCount Cpp17 GNUC ConstantEvaluated 8 five_members = Built (Some 3)
  /\ (r ← ordinals Cpp20 five_members; Built (iterate Cpp20 8 r))
     = Built (Some (Enumerator <$> [0; 1; 2; 3; 4])).
Proof. repeat split. Qed.

Example one_member_scenario :
  bitCount Cpp20 GNUC RunTime 8 one_member = Built (Some 0)
  /\ bitCount Cpp17 GNUC RunTime 8 one_member = Built (Some 0)
  /\ (r ← ordinals Cpp17 one_member; Built (iterate Cpp17 8 r))
     = Built (Some [Enumerator 0]).
Proof. repeat split. Qed.

(** C1: in the C++17 configuration built with GCC or Clang, a call of
    [bitCount] that is not constant-evaluated does not return the bit
    width of [N - 1]. For the five-member family it returns 29, where
    the bit width of 4 (the ceiling of log2 5) is 3, the value the C++20
    configuration and the constant-evaluated call return. *)
Theorem bitCount_cpp17_gnuc_run_time_five :
  bitCount Cpp17 GNUC RunTime 8 (EnumClass uint8_t (Some 5)) = Built (Some 29)
  /\ bitCount Cpp17 GNUC ConstantEvaluated 8 (EnumClass uint8_t (Some 5))
     = Built (Some 3)
  /\ bitCount Cpp20 GNUC RunTime 8 (EnumClass uint8_t (Some 5)) = Built (Some 3)
  /\ Z.log2_up 5 = 3.
Proof. repeat split. Qed.

(** C2: at the input 4 (the family of five ordinals) [std::bit_width]
    and the constant-evaluated branch of [cpp17_bit_width] return 3 and
    its run-time branch under GCC or Clang returns 29; with the 10000
    ordinals of the tested domain's upper end, 14 against 18. *)
Theorem cpp17_bit_width_gnuc_branches_differ :
  std_bit_width uint8_t (5 - 1) = Built 3
  /\ Shim.cpp17_bit_width GNUC ConstantEvaluated 8 uint8_t (5 - 1) = Some 3
  /\ Shim.cpp17_bit_width GNUC RunTime 8 uint8_t (5 - 1) = Some 29
  /\ std_bit_width uint16_t (10000 - 1) = Built 14
  /\ Shim.cpp17_bit_width GNUC ConstantEvaluated 16 uint16_t (10000 - 1) = Some 14
  /\ Shim.cpp17_bit_width GNUC RunTime 16 uint16_t (10000 - 1) = Some 18.
Proof. repeat split. Qed.

(** ** Position markers *)

Lemma promote_in_range u z : in_range u z -> in_range (promote u) z.
Proof.
  unfold in_range. destruct u as [[] []]; cbn; lia.
Qed.

Lemma add_in_exact T a b : in_range T (a + b) -> add_in T a b = Some (a + b).
Proof.
  intros Hr. unfold add_in. destruct (is_signed T).
  - apply in_rangeb_spec in Hr. now rewrite Hr.
  - now rewrite static_cast_id.
Qed.

Lemma operator_inc_next cfg u k :
  in_range u (k + 1) ->
  operator_inc cfg u {| e := Enumerator k |}
  = Some {| e := Enumerator (k + 1) |}.
Proof.
  intros Hr.
  assert (H : add_in (promote u) k 1 = Some (k + 1))
    by now apply add_in_exact, promote_in_range.
  destruct cfg;
    unfold operator_inc, Primary.operator_inc, Shim.operator_inc,
      Primary.to_underlying, Shim.to_underlying;
    cbn [e value_of]; rewrite H; cbn [mbind option_bind];
    unfold static_cast_enum; now rewrite static_cast_id.
Qed.

Lemma operator_ne_values cfg a b :
  operator_ne cfg a b = negb (value_of (e a) =? value_of (e b)).
Proof. destruct cfg; reflexivity. Qed.

Lemma operator_eq_values cfg a b :
  operator_eq cfg a b = (value_of (e a) =? value_of (e b)).
Proof. destruct cfg; reflexivity. Qed.

Lemma operator_deref_value cfg it : operator_deref cfg it = e it.
Proof. destruct cfg; reflexivity. Qed.

Lemma iterate_range_for cfg fuel r :
  iterate cfg fuel r
  = range_for (operator_ne cfg) (operator_deref cfg)
      (operator_inc cfg (range_underlying r)) fuel (begin cfg r) (end_ cfg r).
Proof. destruct cfg; reflexivity. Qed.

(** ** The iteration adapter *)

(** From the marker at [k] to the marker at [N] the loop yields
    [k, k+1, ..., N-1]. *)
Lemma range_for_counts cfg u N fuel : forall k,
  0 <= k <= N -> N <= max_value u -> (Z.to_nat (N - k) < fuel)%nat ->
  range_for (operator_ne cfg) (operator_deref cfg) (operator_inc cfg u) fuel
    {| e := Enumerator k |} {| e := Enumerator N |}
  = Some (Enumerator <$> seqZ k (N - k)).
Proof.
  induction fuel as [|fuel IH]; intros k Hk HN Hfuel; [lia|].
  simpl. rewrite operator_ne_values. simpl.
  destruct (k =? N) eqn:Hend; simpl.
  - apply Z.eqb_eq in Hend. subst k. now rewrite seqZ_nil by lia.
  - apply Z.eqb_neq in Hend.
    rewrite operator_inc_next
      by (unfold in_range; pose proof (min_value_nonpos u); lia).
    simpl. rewrite IH by lia. simpl.
    rewrite operator_deref_value. simpl.
    rewrite (seqZ_cons k) by lia. rewrite fmap_cons.
    replace (N - (k + 1)) with (Z.pred (N - k)) by lia.
    reflexivity.
Qed.

Lemma ordinals_ascending m n :
  StronglySorted (fun a b => value_of a < value_of b) (Enumerator <$> seqZ m n).
Proof.
  remember (Z.to_nat n) as len eqn:Hlen.
  revert m n Hlen. induction len as [|len IH]; intros m n Hlen.
  - rewrite seqZ_nil by lia. constructor.
  - rewrite seqZ_cons by lia. rewrite fmap_cons.
    apply StronglySorted_cons. split.
    + rewrite Forall_fmap. apply Forall_seqZ. intros j Hj. simpl. lia.
    + apply IH. lia.
Qed.

Lemma ordinals_distinct m n : NoDup (Enumerator <$> seqZ m n).
Proof.
  apply NoDup_fmap_2; [|apply NoDup_seqZ].
  intros a b [= ->]. reflexivity.
Qed.

Lemma ordinals_last N :
  1 <= N -> last (Enumerator <$> seqZ 0 N) = Some (Enumerator (N - 1)).
Proof.
  intros HN. rewrite last_lookup, length_fmap, length_seqZ, list_lookup_fmap.
  rewrite lookup_seqZ_lt by lia. simpl. do 2 f_equal. lia.
Qed.

Lemma ordinals_exclude_bound N : Enumerator N ∉ Enumerator <$> seqZ 0 N.
Proof.
  intros Hin. apply list_elem_of_fmap in Hin as (j & [= <-] & Hj).
  apply elem_of_seqZ in Hj. lia.
Qed.

(** C3, as amended: for a family whose count [N >= 1] is itself a value of
    the underlying type, the capability predicate holds, the range's
    markers are at 0 and at [N], and the loop from the first to the second
    yields [0, 1, ..., N-1]: [N] distinct ordinals in strictly ascending
    order, the first 0 and the last [N-1]. The end marker's value [N] is
    not among the values read. *)
Theorem ordinals_yields_every_ordinal cfg u N fuel :
  1 <= N -> N <= max_value u -> (Z.to_nat N < fuel)%nat ->
  HasOrdinality cfg (EnumClass u (Some N)) = Built true
  /\ exists r l,
       ordinals cfg (EnumClass u (Some N)) = Built r
       /\ begin cfg r = {| e := Enumerator 0 |}
       /\ end_ cfg r = {| e := Enumerator N |}
       /\ iterate cfg fuel r = Some l
       /\ l = Enumerator <$> seqZ 0 N
       /\ length l = Z.to_nat N
       /\ NoDup l
       /\ StronglySorted (fun a b => value_of a < value_of b) l
       /\ head l = Some (Enumerator 0)
       /\ last l = Some (Enumerator (N - 1))
       /\ operator_deref cfg (end_ cfg r) ∉ l.
Proof.
  intros HN Hfit Hfuel.
  assert (Hpos : (0 <? N) = true) by (apply Z.ltb_lt; lia).
  assert (Hcast : static_cast u N = N).
  { apply static_cast_id. unfold in_range. pose proof (min_value_nonpos u). lia. }
  split; [destruct cfg; cbn; now rewrite Hpos|].
  exists {| range_underlying := u; range_count := N |},
         (Enumerator <$> seqZ 0 N).
  assert (Hend : end_ cfg {| range_underlying := u; range_count := N |}
                 = {| e := Enumerator N |}).
  { destruct cfg;
      unfold end_, Primary.end_, Shim.end_, static_cast_enum;
      cbn [range_underlying range_count]; now rewrite Hcast. }
  split; [destruct cfg; cbn; [now rewrite Hpos|reflexivity]|].
  split; [destruct cfg; reflexivity|].
  split; [exact Hend|].
  split.
  { rewrite iterate_range_for, Hend. simpl range_underlying.
    replace (begin cfg _) with {| e := Enumerator 0 |} by (destruct cfg; reflexivity).
    rewrite (range_for_counts cfg u N fuel 0) by lia.
    now rewrite Z.sub_0_r. }
  split; [reflexivity|].
  split; [now rewrite length_fmap, length_seqZ|].
  split; [apply ordinals_distinct|].
  split; [apply ordinals_ascending|].
  split; [rewrite seqZ_cons by lia; reflexivity|].
  split; [now apply ordinals_last|].
  rewrite Hend, operator_deref_value. simpl. apply ordinals_exclude_bound.
Qed.

Lemma ordinals_yields_every_ordinal_witness :
  HasOrdinality Cpp20 (EnumClass uint8_t (Some 5)) = Built true
  /\ exists r l,
       ordinals Cpp20 (EnumClass uint8_t (Some 5)) = Built r
       /\ begin Cpp20 r = {| e := Enumerator 0 |}
       /\ end_ Cpp20 r = {| e := Enumerator 5 |}
       /\ iterate Cpp20 8 r = Some l
       /\ l = Enumerator <$> seqZ 0 5
       /\ length l = Z.to_nat 5
       /\ NoDup l
       /\ StronglySorted (fun a b => value_of a < value_of b) l
       /\ head l = Some (Enumerator 0)
       /\ last l = Some (Enumerator (5 - 1))
       /\ operator_deref Cpp20 (end_ Cpp20 r) ∉ l.
Proof.
  apply (ordinals_yields_every_ordinal Cpp20 uint8_t 5 8); cbn; lia.
Defined.

(** C3 fails as stated for the full 8-bit family: 256 ordinals 0..255 with
    underlying type [uint8_t]. The capability predicate holds, but the end
    marker holds 0, equal to the begin marker, and the loop yields
    nothing. *)
Lemma ordinals_full_uint8_yields_nothing :
  HasOrdinality Cpp20 (EnumClass uint8_t (Some 256)) = Built true
  /\ (forall k, 0 <= k < 256 -> in_range uint8_t k)
  /\ exists r,
       ordinals Cpp20 (EnumClass uint8_t (Some 256)) = Built r
       /\ end_ Cpp20 r = {| e := Enumerator 0 |}
       /\ end_ Cpp20 r = begin Cpp20 r
       /\ iterate Cpp20 300 r = Some []
       /\ iterate Cpp20 300 r <> Some (Enumerator <$> seqZ 0 256).
Proof.
  split; [reflexivity|].
  split; [intros k Hk; unfold in_range; cbn; lia|].
  eexists. split; [reflexivity|].
  repeat split. discriminate.
Qed.

(** ** The capability predicate *)

(** C4, as amended: for an enumeration type the predicate is true exactly
    when a specialization of [ordinalCount] exists and returns a positive
    value, and false exactly when one exists and returns a value that is
    not positive. Without a specialization the predicate has no value:
    evaluating it fails the build. *)
Theorem HasOrdinality_enumeration cfg u c :
  (HasOrdinality cfg (EnumClass u c) = Built true
     <-> exists n, c = Some n /\ 0 < n)
  /\ (HasOrdinality cfg (EnumClass u c) = Built false
     <-> exists n, c = Some n /\ n <= 0)
  /\ (HasOrdinality cfg (EnumClass u c) = BuildFails NoSpecialization
     <-> c = None).
Proof.
  assert (Hval : HasOrdinality cfg (EnumClass u c)
                 = match c with
                   | Some n => Built (0 <? n)
                   | None => BuildFails NoSpecialization
                   end)
    by (destruct cfg, c; reflexivity).
  rewrite Hval. destruct c as [n|].
  - destruct (Z.ltb_spec 0 n) as [Hn|Hn]; repeat split;
      try discriminate; try (intros _; exists n; split; [reflexivity|lia]);
      intros (m & [= <-] & Hm); lia.
  - repeat split; try discriminate; try reflexivity;
      intros (m & [=] & _).
Qed.

(** C4 fails as stated for an enumeration type without a specialization:
    the predicate is not false there, in either configuration. *)
Lemma HasOrdinality_unspecialized_not_false :
  is_enum_v (EnumClass uint8_t None) = true
  /\ specialization (EnumClass uint8_t None) = None
  /\ HasOrdinality Cpp20 (EnumClass uint8_t None) <> Built false
  /\ HasOrdinality Cpp17 (EnumClass uint8_t None) <> Built false
  /\ HasOrdinality Cpp20 (EnumClass uint8_t None) = BuildFails NoSpecialization
  /\ HasOrdinality Cpp17 (EnumClass uint8_t None) = BuildFails NoSpecialization.
Proof. repeat split; discriminate. Qed.

(** For a type that is not an enumeration the concept is false, while the
    variable template of the C++17 configuration cannot be named. *)
Lemma HasOrdinality_not_enum :
  HasOrdinality Cpp20 NotEnum = Built false
  /\ HasOrdinality Cpp17 NotEnum = BuildFails ConstraintFailure.
Proof. split; reflexivity. Qed.

(** ** Comparison of position markers *)

(** C6: two markers compare equal exactly when their ordinal values are
    equal, which is exactly when the markers are the same; [!=] is the
    negation of [==]. *)
Theorem marker_equality_by_ordinal cfg a b :
  (operator_eq cfg a b = true <-> value_of (e a) = value_of (e b))
  /\ (operator_ne cfg a b = true <-> value_of (e a) <> value_of (e b))
  /\ operator_ne cfg a b = negb (operator_eq cfg a b)
  /\ (operator_eq cfg a b = true <-> a = b).
Proof.
  rewrite operator_eq_values, operator_ne_values.
  rewrite negb_true_iff, Z.eqb_eq, Z.eqb_neq.
  repeat split; try tauto.
  - destruct a as [[x]], b as [[y]]. simpl. now intros ->.
  - now intros ->.
Qed.

(** ** to_underlying *)

(** C9: [to_underlying] returns the enumerator's value, a value of the
    underlying type; converting it back gives the enumerator again; the
    two configurations define the same function. *)
Theorem to_underlying_round_trip cfg u x :
  in_range u (value_of x) ->
  to_underlying cfg x = value_of x
  /\ in_range u (to_underlying cfg x)
  /\ static_cast_enum u (to_underlying cfg x) = x
  /\ to_underlying Cpp20 x = to_underlying Cpp17 x.
Proof.
  intros Hr.
  assert (Hv : to_underlying cfg x = value_of x) by (destruct cfg; reflexivity).
  rewrite Hv. split; [reflexivity|]. split; [exact Hr|]. split.
  - unfold static_cast_enum. rewrite static_cast_id by assumption.
    now destruct x.
  - reflexivity.
Qed.

Lemma to_underlying_round_trip_witness :
  to_underlying Cpp17 (Enumerator 3) = value_of (Enumerator 3)
  /\ in_range uint8_t (to_underlying Cpp17 (Enumerator 3))
  /\ static_cast_enum uint8_t (to_underlying Cpp17 (Enumerator 3)) = Enumerator 3
  /\ to_underlying Cpp20 (Enumerator 3) = to_underlying Cpp17 (Enumerator 3).
Proof.
  apply (to_underlying_round_trip Cpp17 uint8_t (Enumerator 3)).
  unfold in_range. cbn. lia.
Defined.

(** ** What the constraints reject *)

Lemma not_enum_rejected cfg cc ev fuel :
  ordinalCount cfg NotEnum = BuildFails ConstraintFailure
  /\ bitCount cfg cc ev fuel NotEnum = BuildFails ConstraintFailure
  /\ ordinals cfg NotEnum = BuildFails ConstraintFailure.
Proof. destruct cfg; repeat split. Qed.

Lemma unspecialized_rejected cfg cc ev fuel u :
  ordinalCount cfg (EnumClass u None) = BuildFails NoSpecialization
  /\ bitCount cfg cc ev fuel (EnumClass u None) = BuildFails NoSpecialization
  /\ ordinals cfg (EnumClass u None) = BuildFails NoSpecialization.
Proof. destruct cfg; repeat split. Qed.

Lemma bitCount_nonpositive_rejected cfg cc ev fuel u n :
  n <= 0 ->
  bitCount cfg cc ev fuel (EnumClass u (Some n)) = BuildFails ConstraintFailure.
Proof.
  intros Hn. assert (H : (0 <? n) = false) by (apply Z.ltb_ge; lia).
  destruct cfg; cbn; now rewrite H.
Qed.

Lemma Primary_ordinals_nonpositive_rejected u n :
  n <= 0 ->
  Primary.ordinals (EnumClass u (Some n)) = BuildFails ConstraintFailure.
Proof.
  intros Hn. assert (H : (0 <? n) = false) by (apply Z.ltb_ge; lia).
  cbn. now rewrite H.
Qed.

(** The C++17 [ordinals] builds for every specialized enumeration. *)
Lemma Shim_ordinals_any_count u n :
  Shim.ordinals (EnumClass u (Some n))
  = Built {| range_underlying := u; range_count := n |}.
Proof. reflexivity. Qed.

(** C7: for a family whose specialization returns 0 the capability
    predicate is false in both configurations and both reject [bitCount];
    the C++20 [ordinals] is rejected too, but the C++17 [ordinals] builds
    and yields a range. *)
Theorem ordinals_cpp17_builds_for_zero_count :
  HasOrdinality Cpp20 (EnumClass uint8_t (Some 0)) = Built false
  /\ HasOrdinality Cpp17 (EnumClass uint8_t (Some 0)) = Built false
  /\ bitCount Cpp20 GNUC ConstantEvaluated 8 (EnumClass uint8_t (Some 0))
     = BuildFails ConstraintFailure
  /\ bitCount Cpp17 GNUC ConstantEvaluated 8 (EnumClass uint8_t (Some 0))
     = BuildFails ConstraintFailure
  /\ ordinals Cpp20 (EnumClass uint8_t (Some 0)) = BuildFails ConstraintFailure
  /\ ordinals Cpp17 (EnumClass uint8_t (Some 0))
     = Built {| range_underlying := uint8_t; range_count := 0 |}
  /\ iterate Cpp17 8 {| range_underlying := uint8_t; range_count := 0 |}
     = Some [].
Proof. repeat split. Qed.

(** C8: for a family whose specialization returns -1 the capability
    predicate is false, yet the C++17 [ordinals] is instantiated, and at
    run time its loop yields the 255 values 0..254. *)
Theorem ordinals_cpp17_runs_for_negative_count :
  HasOrdinality Cpp17 (EnumClass uint8_t (Some (-1))) = Built false
  /\ bitCount Cpp17 GNUC ConstantEvaluated 8 (EnumClass uint8_t (Some (-1)))
     = BuildFails ConstraintFailure
  /\ ordinals Cpp20 (EnumClass uint8_t (Some (-1))) = BuildFails ConstraintFailure
  /\ ordinals Cpp17 (EnumClass uint8_t (Some (-1)))
     = Built {| range_underlying := uint8_t; range_count := -1 |}
  /\ iterate Cpp17 300 {| range_underlying := uint8_t; range_count := -1 |}
     = Some (Enumerator <$> seqZ 0 255).
Proof. repeat split. Qed.

(** ** Independence of ranges *)

Section Independence.
Variable cfg : Configuration.
Variable u : IntType.

Lemma perform_frame s act s' out b :
  perform cfg u s act = Some (s', out) -> target act ≠ b -> s' !! b = s !! b.
Proof.
  destruct act as [a|a]; simpl; intros Hp Hb.
  - destruct (s !! a) as [it|]; [|discriminate]. simpl in Hp.
    destruct (operator_inc cfg u it) as [it'|]; [|discriminate].
    injection Hp as <- <-. now apply lookup_insert_ne.
  - destruct (s !! a) as [it|]; [|discriminate].
    injection Hp as <- <-. reflexivity.
Qed.

Lemma run_frame acts : forall s s' out b,
  run cfg u s acts = Some (s', out) ->
  Forall (fun act => target act ≠ b) acts ->
  s' !! b = s !! b.
Proof.
  induction acts as [|act acts IH]; simpl; intros s s' out b Hrun Hall.
  - now injection Hrun as <- <-.
  - apply Forall_cons in Hall as [Hact Hall].
    destruct (perform cfg u s act) as [[s1 out1]|] eqn:Hp; [|discriminate].
    simpl in Hrun.
    destruct (run cfg u s1 acts) as [[s2 out2]|] eqn:Hr; [|discriminate].
    injection Hrun as <- <-.
    rewrite (IH _ _ _ _ Hr Hall). now apply (perform_frame s act s1 out1).
Qed.

Lemma consume_frame fuel : forall a last s s' out b,
  consume cfg u fuel a last s = Some (s', out) -> a ≠ b -> s' !! b = s !! b.
Proof.
  induction fuel as [|fuel IH]; simpl; intros a last s s' out b Hc Hb;
    [discriminate|].
  destruct (s !! a) as [it|]; [|discriminate]. simpl in Hc.
  destruct (operator_ne cfg it last).
  - destruct (operator_inc cfg u it) as [it'|]; [|discriminate]. simpl in Hc.
    destruct (consume cfg u fuel a last (<[a:=it']> s)) as [[s1 rest]|] eqn:Hrec;
      [|discriminate].
    injection Hc as <- <-.
    rewrite (IH _ _ _ _ _ _ Hrec Hb). now apply lookup_insert_ne.
  - now injection Hc as <- <-.
Qed.

(** Running the loop on a stored object yields what the loop yields from
    the object's state. *)
Lemma consume_range_for fuel : forall a last s it,
  s !! a = Some it ->
  snd <$> consume cfg u fuel a last s
  = range_for (operator_ne cfg) (operator_deref cfg) (operator_inc cfg u)
      fuel it last.
Proof.
  induction fuel as [|fuel IH]; simpl; intros a last s it Hs; [reflexivity|].
  rewrite Hs. simpl. destruct (operator_ne cfg it last); [|reflexivity].
  destruct (operator_inc cfg u it) as [it'|]; [|reflexivity]. simpl.
  rewrite <- (IH a last (<[a:=it']> s) it') by apply lookup_insert_eq.
  destruct (consume cfg u fuel a last (<[a:=it']> s)) as [[s1 rest]|];
    reflexivity.
Qed.

Lemma new_object_fresh it s a s' :
  new_object it s = (a, s') -> s !! a = None /\ s' = <[a := it]> s.
Proof.
  unfold new_object. intros [= <- <-]. split; [|reflexivity].
  apply not_elem_of_dom. apply is_fresh.
Qed.

End Independence.

(** C5: two calls of [ordinals] for one family give ranges with the same
    sequence. The marker objects that [begin] returns for them are
    distinct, each at ordinal 0; whatever is done with markers of the
    first range (single advances and reads, or a whole loop), the second
    range's marker stays at 0 and its loop yields the sequence of a fresh
    range. A marker obtained from [begin] in any later state of the store
    is a new object at ordinal 0 with that same sequence. *)
Theorem ranges_independent cfg t r1 r2 s0 a1 s1 a2 s2 fuel :
  ordinals cfg t = Built r1 ->
  ordinals cfg t = Built r2 ->
  new_object (begin cfg r1) s0 = (a1, s1) ->
  new_object (begin cfg r2) s1 = (a2, s2) ->
  a1 ≠ a2
  /\ s2 !! a1 = Some {| e := Enumerator 0 |}
  /\ s2 !! a2 = Some {| e := Enumerator 0 |}
  /\ iterate cfg fuel r1 = iterate cfg fuel r2
  /\ (forall acts s' out,
        Forall (fun act => target act ≠ a2) acts ->
        run cfg (range_underlying r1) s2 acts = Some (s', out) ->
        s' !! a2 = Some {| e := Enumerator 0 |}
        /\ snd <$> consume cfg (range_underlying r2) fuel a2 (end_ cfg r2) s'
           = iterate cfg fuel r2)
  /\ (forall fuel1 s' out,
        consume cfg (range_underlying r1) fuel1 a1 (end_ cfg r1) s2
          = Some (s', out) ->
        Some out = iterate cfg fuel1 r1
        /\ s' !! a2 = Some {| e := Enumerator 0 |}
        /\ snd <$> consume cfg (range_underlying r2) fuel a2 (end_ cfg r2) s'
           = iterate cfg fuel r2)
  /\ (forall s a3 s3,
        new_object (begin cfg r2) s = (a3, s3) ->
        s !! a3 = None
        /\ s3 !! a3 = Some {| e := Enumerator 0 |}
        /\ snd <$> consume cfg (range_underlying r2) fuel a3 (end_ cfg r2) s3
           = iterate cfg fuel r2).
Proof.
  intros Hr1 Hr2 Hn1 Hn2.
  assert (r1 = r2) as <- by congruence.
  apply new_object_fresh in Hn1 as [Hf1 ->].
  apply new_object_fresh in Hn2 as [Hf2 ->].
  assert (Hbegin : begin cfg r1 = {| e := Enumerator 0 |})
    by (destruct cfg; reflexivity).
  rewrite Hbegin in *.
  assert (Hne : a1 ≠ a2).
  { intros ->. rewrite lookup_insert_eq in Hf2. discriminate. }
  assert (H2 : <[a2:={| e := Enumerator 0 |}]>
                 (<[a1:={| e := Enumerator 0 |}]> s0) !! a2
               = Some {| e := Enumerator 0 |}) by apply lookup_insert_eq.
  assert (H1 : <[a2:={| e := Enumerator 0 |}]>
                 (<[a1:={| e := Enumerator 0 |}]> s0) !! a1
               = Some {| e := Enumerator 0 |}).
  { rewrite lookup_insert_ne by congruence. apply lookup_insert_eq. }
  split; [exact Hne|]. split; [exact H1|]. split; [exact H2|].
  split; [reflexivity|]. split; [|split].
  - intros acts s' out Hall Hrun.
    assert (Hkeep : s' !! a2 = Some {| e := Enumerator 0 |}).
    { rewrite (run_frame _ _ _ _ _ _ _ Hrun Hall). exact H2. }
    split; [exact Hkeep|].
    rewrite (consume_range_for _ _ _ _ _ _ _ Hkeep).
    now rewrite iterate_range_for, Hbegin.
  - intros fuel1 s' out Hloop.
    assert (Hkeep : s' !! a2 = Some {| e := Enumerator 0 |}).
    { rewrite (consume_frame _ _ _ _ _ _ _ _ _ Hloop Hne). exact H2. }
    split; [|split; [exact Hkeep|]].
    + rewrite iterate_range_for, Hbegin.
      rewrite <- (consume_range_for _ _ _ _ _ _ _ H1), Hloop. reflexivity.
    + rewrite (consume_range_for _ _ _ _ _ _ _ Hkeep).
      now rewrite iterate_range_for, Hbegin.
  - intros s a3 s3 Hn3.
    apply new_object_fresh in Hn3 as [Hf3 ->].
    assert (H3 : <[a3:={| e := Enumerator 0 |}]> s !! a3
                 = Some {| e := Enumerator 0 |}) by apply lookup_insert_eq.
    split; [exact Hf3|]. split; [exact H3|].
    rewrite (consume_range_for _ _ _ _ _ _ _ H3).
    now rewrite iterate_range_for, Hbegin.
Qed.

Lemma ranges_independent_witness :
  0%nat ≠ 1%nat
  /\ two_markers !! 0%nat = Some {| e := Enumerator 0 |}
  /\ two_markers !! 1%nat = Some {| e := Enumerator 0 |}
  /\ iterate Cpp20 8 five = iterate Cpp20 8 five
  /\ (forall acts s' out,
        Forall (fun act => target act ≠ 1%nat) acts ->
        run Cpp20 (range_underlying five) two_markers acts = Some (s', out) ->
        s' !! 1%nat = Some {| e := Enumerator 0 |}
        /\ snd <$> consume Cpp20 (range_underlying five) 8 1 (end_ Cpp20 five) s'
           = iterate Cpp20 8 five)
  /\ (forall fuel1 s' out,
        consume Cpp20 (range_underlying five) fuel1 0 (end_ Cpp20 five) two_markers
          = Some (s', out) ->
        Some out = iterate Cpp20 fuel1 five
        /\ s' !! 1%nat = Some {| e := Enumerator 0 |}
        /\ snd <$> consume Cpp20 (range_underlying five) 8 1 (end_ Cpp20 five) s'
           = iterate Cpp20 8 five)
  /\ (forall s a3 s3,
        new_object (begin Cpp20 five) s = (a3, s3) ->
        s !! a3 = None
        /\ s3 !! a3 = Some {| e := Enumerator 0 |}
        /\ snd <$> consume Cpp20 (range_underlying five) 8 a3 (end_ Cpp20 five) s3
           = iterate Cpp20 8 five).
Proof.
  apply (ranges_independent Cpp20 (EnumClass uint8_t (Some 5)) five five
           ∅ 0%nat (<[0%nat := {| e := Enumerator 0 |}]> ∅) 1%nat two_markers 8).
  - reflexivity.
  - reflexivity.
  - vm_compute. reflexivity.
  - vm_compute. reflexivity.
Defined.

(** A run of the scenario: the first range's marker is advanced twice and
    read, then the second range is iterated in full. *)
Example ranges_independent_run :
  ('(s', out) ← run Cpp20 uint8_t two_markers [Advance 0; Read 0; Advance 0; Read 0];
   '(s'', all) ← consume Cpp20 uint8_t 8 1 (end_ Cpp20 five) s';
   Some (out, all, s'' !! 0%nat, s'' !! 1%nat))
  = Some (Enumerator <$> [1; 2], Enumerator <$> [0; 1; 2; 3; 4],
          Some {| e := Enumerator 2 |}, Some {| e := Enumerator 5 |}).
Proof. vm_compute. reflexivity. Qed.

(** * Further properties of the header *)

(** ** cpp17_bit_width, branch by branch *)

Lemma binary_digits_bounds x :
  0 < x -> 2 ^ (binary_digits x - 1) <= x < 2 ^ binary_digits x.
Proof.
  intros Hx. rewrite binary_digits_log2 by assumption.
  replace (Z.log2 x + 1 - 1) with (Z.log2 x) by lia.
  apply (Z.log2_spec x Hx).
Qed.

Lemma binary_digits_unique x w :
  0 <= w -> 2 ^ (w - 1) <= x < 2 ^ w -> 0 < x -> binary_digits x = w.
Proof.
  intros Hw Hx Hpos. rewrite binary_digits_log2 by assumption.
  destruct (Z.eq_dec w 0) as [->|Hne]; [simpl in Hx; lia|].
  rewrite (Z.log2_unique x (w - 1)); [lia|lia|].
  replace (Z.succ (w - 1)) with w by lia. exact Hx.
Qed.

(** X1: evaluated in a constant expression, [cpp17_bit_width] returns for
    every value of an unsigned type what [std::bit_width] returns: 0 for
    0, and otherwise the [w] with [2^(w-1) <= x < 2^w]. *)
Theorem cpp17_bit_width_refines_std_bit_width cc fuel T x :
  is_signed T = false -> in_range T x -> (64 < fuel)%nat ->
  exists w,
    std_bit_width T x = Built w
    /\ Shim.cpp17_bit_width cc ConstantEvaluated fuel T x = Some w
    /\ (x = 0 -> w = 0)
    /\ (x <> 0 -> 2 ^ (w - 1) <= x < 2 ^ w).
Proof.
  intros Hu Hr Hfuel. exists (binary_digits x).
  assert (H0 : 0 <= x) by (unfold in_range, min_value in Hr; rewrite Hu in Hr; lia).
  split; [unfold std_bit_width; now rewrite Hu|].
  split; [now apply cpp17_bit_width_constant_evaluated|].
  split; [now intros ->|].
  intros Hne. apply binary_digits_bounds. lia.
Qed.

Lemma cpp17_bit_width_refines_std_bit_width_witness :
  exists w,
    std_bit_width uint16_t 9999 = Built w
    /\ Shim.cpp17_bit_width GNUC ConstantEvaluated 65 uint16_t 9999 = Some w
    /\ (9999 = 0 -> w = 0)
    /\ (9999 <> 0 -> 2 ^ (w - 1) <= 9999 < 2 ^ w).
Proof.
  apply (cpp17_bit_width_refines_std_bit_width GNUC 65 uint16_t 9999).
  - reflexivity.
  - unfold in_range. cbn. lia.
  - lia.
Defined.

Lemma static_cast_uint32_mod x : static_cast uint32_t x = x mod 2 ^ 32.
Proof.
  unfold static_cast, modulus. cbn [min_value is_signed uint32_t type_width bits].
  now rewrite Z.sub_0_r, Z.add_0_r.
Qed.

(** X2: at run time under MSVC the result depends only on the low 32 bits
    of a non-zero [x]: it is their bit width when they are not all zero
    (so the bit width of [x] itself when [x < 2^32]), and there is no
    defined result when they are. *)
Theorem cpp17_bit_width_msvc_low_bits fuel T x :
  x <> 0 ->
  (x mod 2 ^ 32 <> 0 ->
     Shim.cpp17_bit_width MSVC RunTime fuel T x
     = Some (binary_digits (x mod 2 ^ 32)))
  /\ (x mod 2 ^ 32 = 0 -> Shim.cpp17_bit_width MSVC RunTime fuel T x = None)
  /\ (0 < x < 2 ^ 32 ->
     Shim.cpp17_bit_width MSVC RunTime fuel T x = Some (binary_digits x)).
Proof.
  intros Hx.
  assert (Hz : (x =? 0) = false) by now apply Z.eqb_neq.
  assert (Hlow : x mod 2 ^ 32 <> 0 ->
                 Shim.cpp17_bit_width MSVC RunTime fuel T x
                 = Some (binary_digits (x mod 2 ^ 32))).
  { intros Hm. unfold Shim.cpp17_bit_width, BitScanReverse.
    rewrite Hz. simpl is_constant_evaluated. cbv iota.
    rewrite static_cast_uint32_mod.
    pose proof (Z.mod_pos_bound x (2 ^ 32) ltac:(lia)) as Hb.
    assert (Hmz : (x mod 2 ^ 32 =? 0) = false) by now apply Z.eqb_neq.
    rewrite Hmz. cbn [mbind option_bind].
    rewrite binary_digits_log2 by lia.
    assert (Z.log2 (x mod 2 ^ 32) < 32) by (apply Z.log2_lt_pow2; lia).
    pose proof (Z.log2_nonneg (x mod 2 ^ 32)).
    rewrite static_cast_id; [reflexivity|]. unfold in_range. cbn. lia. }
  split; [exact Hlow|]. split.
  - intros Hm. unfold Shim.cpp17_bit_width, BitScanReverse.
    rewrite Hz. simpl is_constant_evaluated. cbv iota.
    rewrite static_cast_uint32_mod, Hm. reflexivity.
  - intros Hsmall. rewrite Hlow; rewrite Z.mod_small by lia; [reflexivity|lia].
Qed.

Lemma cpp17_bit_width_msvc_low_bits_witness :
  (2 ^ 32 mod 2 ^ 32 <> 0 ->
     Shim.cpp17_bit_width MSVC RunTime 0 {| is_signed := false; type_width := W64 |} (2 ^ 32)
     = Some (binary_digits (2 ^ 32 mod 2 ^ 32)))
  /\ (2 ^ 32 mod 2 ^ 32 = 0 ->
     Shim.cpp17_bit_width MSVC RunTime 0 {| is_signed := false; type_width := W64 |} (2 ^ 32)
     = None)
  /\ (0 < 2 ^ 32 < 2 ^ 32 ->
     Shim.cpp17_bit_width MSVC RunTime 0 {| is_signed := false; type_width := W64 |} (2 ^ 32)
     = Some (binary_digits (2 ^ 32))).
Proof.
  apply (cpp17_bit_width_msvc_low_bits 0 {| is_signed := false; type_width := W64 |} (2 ^ 32)).
  lia.
Defined.

(** X3: at run time under GCC or Clang the result for [0 < x < 2^32] is
    32 minus the bit width of [x], a value from 0 to 31; it is the bit
    width itself exactly for [2^15 <= x < 2^16]. *)
Theorem cpp17_bit_width_gnuc_run_time_leading_zeros fuel T x :
  0 < x < 2 ^ 32 ->
  exists w,
    binary_digits x = w
    /\ Shim.cpp17_bit_width GNUC RunTime fuel T x = Some (32 - w)
    /\ 0 <= 32 - w <= 31
    /\ (32 - w = w <-> 2 ^ 15 <= x < 2 ^ 16).
Proof.
  intros Hx. exists (binary_digits x).
  pose proof (binary_digits_bounds x ltac:(lia)) as Hb.
  assert (Hw : 1 <= binary_digits x <= 32).
  { rewrite binary_digits_log2 by lia.
    pose proof (Z.log2_nonneg x).
    assert (Z.log2 x < 32) by (apply Z.log2_lt_pow2; lia). lia. }
  split; [reflexivity|].
  split; [now apply cpp17_bit_width_gnuc_run_time|].
  split; [lia|]. split.
  - intros Heq. assert (Hd : binary_digits x = 16) by lia.
    rewrite Hd in Hb. exact Hb.
  - intros Hrange.
    rewrite (binary_digits_unique x 16); [reflexivity|lia|exact Hrange|lia].
Qed.

Lemma cpp17_bit_width_gnuc_run_time_leading_zeros_witness :
  exists w,
    binary_digits 40000 = w
    /\ Shim.cpp17_bit_width GNUC RunTime 0 uint16_t 40000 = Some (32 - w)
    /\ 0 <= 32 - w <= 31
    /\ (32 - w = w <-> 2 ^ 15 <= 40000 < 2 ^ 16).
Proof.
  apply (cpp17_bit_width_gnuc_run_time_leading_zeros 0 uint16_t 40000). lia.
Defined.

(** ** bitCount as a storage width *)

Lemma static_cast_shift T z k : static_cast T (z + k * modulus T) = static_cast T z.
Proof.
  unfold static_cast.
  replace (z + k * modulus T - min_value T)
    with (z - min_value T + k * modulus T) by lia.
  now rewrite Z_mod_plus_full.
Qed.

Lemma static_cast_unsigned_nonneg T z :
  is_signed T = false -> 0 <= static_cast T z <= max_value T.
Proof.
  intros Hu. pose proof (static_cast_in_range T z) as Hr.
  unfold in_range, min_value in Hr. rewrite Hu in Hr. exact Hr.
Qed.

(** X4: for an unsigned underlying type that holds [N - 1], the C++20
    [bitCount] is a width [b] in which every ordinal [0..N-1] fits, and
    no smaller width holds the largest ordinal. *)
Theorem bitCount_sufficient_and_minimal u N :
  is_signed u = false -> 1 <= N -> N - 1 <= max_value u ->
  exists b,
    Primary.bitCount (EnumClass u (Some N)) = Built b
    /\ 0 <= b
    /\ (forall k, 0 <= k < N -> k < 2 ^ b)
    /\ (forall b', 0 <= b' < b -> 2 ^ b' <= N - 1).
Proof.
  intros Hu HN Hfit. exists (binary_digits (N - 1)).
  split.
  { rewrite Primary_bitCount_value by assumption.
    now rewrite binary_digits_pred_log2_up. }
  split; [apply binary_digits_nonneg|].
  destruct (Z.eq_dec N 1) as [->|Hne].
  - simpl. split; intros; lia.
  - pose proof (binary_digits_bounds (N - 1) ltac:(lia)) as Hb. split.
    + intros k Hk. lia.
    + intros b' Hb'.
      assert (2 ^ b' <= 2 ^ (binary_digits (N - 1) - 1))
        by (apply Z.pow_le_mono_r; lia).
      lia.
Qed.

Lemma bitCount_sufficient_and_minimal_witness :
  exists b,
    Primary.bitCount (EnumClass uint8_t (Some 5)) = Built b
    /\ 0 <= b
    /\ (forall k, 0 <= k < 5 -> k < 2 ^ b)
    /\ (forall b', 0 <= b' < b -> 2 ^ b' <= 5 - 1).
Proof.
  apply (bitCount_sufficient_and_minimal uint8_t 5); [reflexivity|lia|cbn; lia].
Defined.

(** X5: for an unsigned underlying type and any positive count, whether or
    not [N - 1] fits, [bitCount] lies between 0 and the number of bits of
    the underlying type, in the C++20 configuration and in the
    constant-evaluated C++17 one. *)
Theorem bitCount_within_underlying_width cfg cc fuel u N :
  is_signed u = false -> 1 <= N -> (64 < fuel)%nat ->
  exists b,
    bitCount cfg cc ConstantEvaluated fuel (EnumClass u (Some N)) = Built (Some b)
    /\ 0 <= b <= bits (type_width u).
Proof.
  intros Hu HN Hfuel.
  pose proof (static_cast_unsigned_nonneg u (N - 1) Hu) as Hm.
  exists (binary_digits (static_cast u (N - 1))).
  assert (Hpos : (0 <? N) = true) by (apply Z.ltb_lt; lia).
  split.
  - destruct cfg; unfold bitCount.
    + unfold Primary.bitCount, Primary.HasOrdinality. simpl.
      rewrite Hpos. simpl. unfold std_bit_width. now rewrite Hu.
    + unfold Shim.bitCount, Shim.HasOrdinality. simpl. rewrite Hpos. simpl.
      rewrite cpp17_bit_width_constant_evaluated;
        [reflexivity|lia|apply static_cast_in_range|assumption].
  - split; [apply binary_digits_nonneg|now apply binary_digits_le_bits].
Qed.

Lemma bitCount_within_underlying_width_witness :
  exists b,
    bitCount Cpp17 MSVC ConstantEvaluated 65 (EnumClass uint8_t (Some 1000))
    = Built (Some b)
    /\ 0 <= b <= bits (type_width uint8_t).
Proof.
  apply (bitCount_within_underlying_width Cpp17 MSVC 65 uint8_t 1000);
    [reflexivity|lia|lia].
Defined.

(** X6: the cast to the underlying type makes the C++20 [bitCount]
    periodic in the declared count: counts that differ by a multiple of
    [2^bits] give the same result, so a count one above a multiple of
    [2^bits] gives 0 for an unsigned type. *)
Theorem bitCount_count_modulo u N k :
  1 <= N -> 0 <= k ->
  Primary.bitCount (EnumClass u (Some (N + k * modulus u)))
  = Primary.bitCount (EnumClass u (Some N))
  /\ (is_signed u = false ->
      Primary.bitCount (EnumClass u (Some (1 + k * modulus u))) = Built 0).
Proof.
  intros HN Hk. pose proof (modulus_pos u) as HM.
  assert (Hsame : forall n, 1 <= n ->
            Primary.bitCount (EnumClass u (Some (n + k * modulus u)))
            = Primary.bitCount (EnumClass u (Some n))).
  { intros n Hn. unfold Primary.bitCount, Primary.HasOrdinality. simpl.
    assert (H1 : (0 <? n) = true) by (apply Z.ltb_lt; lia).
    assert (H2 : (0 <? n + k * modulus u) = true) by (apply Z.ltb_lt; nia).
    rewrite H1, H2. simpl.
    replace (n + k * modulus u - 1) with (n - 1 + k * modulus u) by lia.
    now rewrite static_cast_shift. }
  split; [now apply Hsame|].
  intros Hu. rewrite Hsame by lia.
  rewrite Primary_bitCount_value; [reflexivity|assumption|lia|].
  pose proof (max_value_pos u). lia.
Qed.

Lemma bitCount_count_modulo_witness :
  Primary.bitCount (EnumClass uint8_t (Some (5 + 1 * modulus uint8_t)))
  = Primary.bitCount (EnumClass uint8_t (Some 5))
  /\ (is_signed uint8_t = false ->
      Primary.bitCount (EnumClass uint8_t (Some (1 + 1 * modulus uint8_t))) = Built 0).
Proof.
  apply (bitCount_count_modulo uint8_t 5 1); lia.
Defined.

(** X7: among counts that fit an unsigned underlying type, a larger
    family never needs fewer bits. *)
Theorem bitCount_monotone u N N' :
  is_signed u = false -> 1 <= N <= N' -> N' - 1 <= max_value u ->
  exists b b',
    Primary.bitCount (EnumClass u (Some N)) = Built b
    /\ Primary.bitCount (EnumClass u (Some N')) = Built b'
    /\ b <= b'.
Proof.
  intros Hu HN Hfit. exists (Z.log2_up N), (Z.log2_up N').
  split; [apply Primary_bitCount_value; [assumption|lia|lia]|].
  split; [apply Primary_bitCount_value; [assumption|lia|lia]|].
  apply Z.log2_up_le_mono. lia.
Qed.

Lemma bitCount_monotone_witness :
  exists b b',
    Primary.bitCount (EnumClass uint8_t (Some 4)) = Built b
    /\ Primary.bitCount (EnumClass uint8_t (Some 5)) = Built b'
    /\ b <= b'.
Proof.
  apply (bitCount_monotone uint8_t 4 5); [reflexivity|lia|cbn; lia].
Defined.

(** X8: for a family with a signed underlying type the C++20 [bitCount]
    does not build, because [std::bit_width] takes unsigned types only,
    while the C++17 one builds and, constant-evaluated, returns the
    ceiling of log2 [N]. *)
Theorem bitCount_signed_underlying cc ev fuel u N :
  is_signed u = true -> 1 <= N -> N - 1 <= max_value u -> (64 < fuel)%nat ->
  bitCount Cpp20 cc ev fuel (EnumClass u (Some N)) = BuildFails NoMatchingFunction
  /\ bitCount Cpp17 cc ConstantEvaluated fuel (EnumClass u (Some N))
     = Built (Some (Z.log2_up N)).
Proof.
  intros Hu HN Hfit Hfuel. split.
  - unfold bitCount. now rewrite Primary_bitCount_signed.
  - unfold bitCount. now apply Shim_bitCount_constant_evaluated.
Qed.

Lemma bitCount_signed_underlying_witness :
  bitCount Cpp20 GNUC RunTime 65 (EnumClass int32_t (Some 5))
  = BuildFails NoMatchingFunction
  /\ bitCount Cpp17 GNUC ConstantEvaluated 65 (EnumClass int32_t (Some 5))
     = Built (Some (Z.log2_up 5)).
Proof.
  apply (bitCount_signed_underlying GNUC RunTime 65 int32_t 5);
    [reflexivity|lia|cbn; lia|lia].
Defined.

(** X9: when the cast of [N - 1] to a signed underlying type is negative,
    the constant-evaluated C++17 [bitCount] builds but its loop never
    returns. *)
Theorem Shim_bitCount_negative_wrap cc u N fuel :
  1 <= N -> static_cast u (N - 1) < 0 ->
  Shim.bitCount cc ConstantEvaluated fuel (EnumClass u (Some N)) = Built None.
Proof.
  intros HN Hneg. unfold Shim.bitCount, Shim.HasOrdinality. simpl.
  assert (Hpos : (0 <? N) = true) by (apply Z.ltb_lt; lia).
  rewrite Hpos. simpl. f_equal.
  unfold Shim.cpp17_bit_width.
  assert (Hz : (static_cast u (N - 1) =? 0) = false) by (apply Z.eqb_neq; lia).
  rewrite Hz.
  assert (Shim.shift_and_count fuel u 0 (static_cast u (N - 1)) = None) as Hloop
    by (apply shift_and_count_diverges; [assumption|apply static_cast_in_range]).
  destruct cc; simpl; exact Hloop.
Qed.

Lemma Shim_bitCount_negative_wrap_witness :
  Shim.bitCount GNUC ConstantEvaluated 1000 (EnumClass int8_t (Some 200))
  = Built None.
Proof.
  apply (Shim_bitCount_negative_wrap GNUC int8_t 200 1000); [lia|].
  vm_compute. reflexivity.
Defined.

(** ** Advancing a marker *)

(** X10: advancing a marker whose ordinal is a value of the underlying
    type moves it to the next ordinal; at the largest value it wraps to
    the smallest one, except for a signed underlying type of at least 32
    bits, where the addition overflows and advancing has no defined
    result. The new ordinal is again a value of the underlying type. *)
Theorem operator_inc_at_bounds cfg u k :
  in_range u k ->
  (k < max_value u ->
     operator_inc cfg u {| e := Enumerator k |}
     = Some {| e := Enumerator (k + 1) |})
  /\ (k = max_value u ->
     operator_inc cfg u {| e := Enumerator k |}
     = if is_signed u && (32 <=? bits (type_width u))
       then None
       else Some {| e := Enumerator (min_value u) |})
  /\ (forall it, operator_inc cfg u {| e := Enumerator k |} = Some it ->
        in_range u (value_of (e it))).
Proof.
  intros Hr. split; [|split].
  - intros Hlt. apply operator_inc_next. unfold in_range in *. lia.
  - intros ->. destruct cfg; destruct u as [[] []]; reflexivity.
  - intros it Hit.
    destruct cfg;
      unfold operator_inc, Primary.operator_inc, Shim.operator_inc in Hit;
      destruct (add_in (promote u) _ 1) as [next|]; try discriminate;
      cbn [mbind option_bind] in Hit; injection Hit as <-;
      apply static_cast_in_range.
Qed.

Lemma operator_inc_at_bounds_witness :
  (255 < max_value uint8_t ->
     operator_inc Cpp20 uint8_t {| e := Enumerator 255 |}
     = Some {| e := Enumerator (255 + 1) |})
  /\ (255 = max_value uint8_t ->
     operator_inc Cpp20 uint8_t {| e := Enumerator 255 |}
     = if is_signed uint8_t && (32 <=? bits (type_width uint8_t))
       then None
       else Some {| e := Enumerator (min_value uint8_t) |})
  /\ (forall it, operator_inc Cpp20 uint8_t {| e := Enumerator 255 |} = Some it ->
        in_range uint8_t (value_of (e it))).
Proof.
  apply (operator_inc_at_bounds Cpp20 uint8_t 255). unfold in_range. cbn. lia.
Defined.

(** ** The loop for every count and underlying type *)

Lemma range_for_span cfg u N fuel : forall k,
  min_value u <= k <= N -> N <= max_value u -> (Z.to_nat (N - k) < fuel)%nat ->
  range_for (operator_ne cfg) (operator_deref cfg) (operator_inc cfg u) fuel
    {| e := Enumerator k |} {| e := Enumerator N |}
  = Some (Enumerator <$> seqZ k (N - k)).
Proof.
  induction fuel as [|fuel IH]; intros k Hk HN Hfuel; [lia|].
  simpl. rewrite operator_ne_values. simpl.
  destruct (k =? N) eqn:Hend; simpl.
  - apply Z.eqb_eq in Hend. subst k. now rewrite seqZ_nil by lia.
  - apply Z.eqb_neq in Hend.
    rewrite operator_inc_next by (unfold in_range; lia).
    simpl. rewrite IH by lia. simpl.
    rewrite operator_deref_value. simpl.
    rewrite (seqZ_cons k) by lia. rewrite fmap_cons.
    replace (N - (k + 1)) with (Z.pred (N - k)) by lia.
    reflexivity.
Qed.

Lemma iterate_nonnegative_end cfg u n fuel :
  0 <= static_cast u n -> (Z.to_nat (static_cast u n) < fuel)%nat ->
  iterate cfg fuel {| range_underlying := u; range_count := n |}
  = Some (Enumerator <$> seqZ 0 (static_cast u n)).
Proof.
  intros Hm Hfuel. rewrite iterate_range_for.
  pose proof (static_cast_in_range u n) as [_ Hmax].
  pose proof (min_value_nonpos u).
  replace (begin cfg _) with {| e := Enumerator 0 |} by (destruct cfg; reflexivity).
  replace (end_ cfg _) with {| e := Enumerator (static_cast u n) |}
    by (destruct cfg; reflexivity).
  cbn [range_underlying].
  rewrite (range_for_span cfg u (static_cast u n) fuel 0) by lia.
  now rewrite Z.sub_0_r.
Qed.

Lemma operator_inc_at_max cfg u :
  operator_inc cfg u {| e := Enumerator (max_value u) |}
  = if is_signed u && (32 <=? bits (type_width u))
    then None
    else Some {| e := Enumerator (min_value u) |}.
Proof. destruct cfg; destruct u as [[] []]; reflexivity. Qed.

Lemma operator_inc_stays_in_range cfg u it it' :
  operator_inc cfg u it = Some it' -> in_range u (value_of (e it')).
Proof.
  intros Hit.
  destruct cfg;
    unfold operator_inc, Primary.operator_inc, Shim.operator_inc in Hit;
    destruct (add_in (promote u) _ 1) as [next|]; try discriminate;
    cbn [mbind option_bind] in Hit; injection Hit as <-;
    apply static_cast_in_range.
Qed.

Lemma range_for_values cfg u fuel : forall it last l,
  in_range u (value_of (e it)) ->
  range_for (operator_ne cfg) (operator_deref cfg) (operator_inc cfg u)
    fuel it last = Some l ->
  Forall (fun x => in_range u (value_of x) /\ x <> e last) l.
Proof.
  induction fuel as [|fuel IH]; intros it last l Hr Hrun; [discriminate|].
  simpl in Hrun. rewrite operator_ne_values in Hrun.
  destruct (value_of (e it) =? value_of (e last)) eqn:Heq; simpl in Hrun.
  - injection Hrun as <-. constructor.
  - apply Z.eqb_neq in Heq.
    destruct (operator_inc cfg u it) as [it'|] eqn:Hinc; [|discriminate].
    simpl in Hrun.
    destruct (range_for _ _ _ fuel it' last) as [rest|] eqn:Hrest;
      [|discriminate].
    injection Hrun as <-. constructor.
    + rewrite operator_deref_value. split; [exact Hr|].
      intros Hsame. apply Heq. now rewrite Hsame.
    + apply (IH it' last rest); [|exact Hrest].
      now apply (operator_inc_stays_in_range cfg u it).
Qed.

(** X11: whatever the count and the underlying type, every value the
    loop over a range yields is a value of the underlying type and differs
    from the end marker's value: the end marker is never read. *)
Theorem iterate_never_reads_end cfg fuel r l :
  iterate cfg fuel r = Some l ->
  Forall (fun x => in_range (range_underlying r) (value_of x)
                   /\ x <> operator_deref cfg (end_ cfg r)) l.
Proof.
  rewrite iterate_range_for, operator_deref_value. intros Hrun.
  apply (range_for_values cfg (range_underlying r) fuel
           (begin cfg r) (end_ cfg r) l); [|exact Hrun].
  replace (begin cfg r) with {| e := Enumerator 0 |} by (destruct cfg; reflexivity).
  unfold in_range. simpl.
  pose proof (min_value_nonpos (range_underlying r)).
  pose proof (max_value_pos (range_underlying r)). lia.
Qed.

Lemma iterate_never_reads_end_witness :
  Forall (fun x => in_range (range_underlying five) (value_of x)
                   /\ x <> operator_deref Cpp17 (end_ Cpp17 five))
    (Enumerator <$> [0; 1; 2; 3; 4]).
Proof.
  apply (iterate_never_reads_end Cpp17 8 five (Enumerator <$> [0; 1; 2; 3; 4])).
  reflexivity.
Defined.

(** X12: the C++17 [ordinals] builds for every specialized enumeration,
    whatever the count [n]. When the cast of [n] to the underlying type is
    a value [m >= 0] (always so for an unsigned type), its loop ends and
    yields exactly the [m] ordinals [0..m-1]: none when [m = 0]. *)
Theorem Shim_ordinals_up_to_cast_count u n fuel :
  0 <= static_cast u n -> (Z.to_nat (static_cast u n) < fuel)%nat ->
  exists r l,
    Shim.ordinals (EnumClass u (Some n)) = Built r
    /\ Shim.iterate fuel r = Some l
    /\ l = Enumerator <$> seqZ 0 (static_cast u n)
    /\ length l = Z.to_nat (static_cast u n)
    /\ (l = [] <-> static_cast u n = 0).
Proof.
  intros Hm Hfuel.
  exists {| range_underlying := u; range_count := n |},
         (Enumerator <$> seqZ 0 (static_cast u n)).
  split; [reflexivity|].
  split; [now apply (iterate_nonnegative_end Cpp17)|].
  split; [reflexivity|].
  split; [now rewrite length_fmap, length_seqZ|].
  split.
  - intros Hnil. apply (f_equal length) in Hnil.
    rewrite length_fmap, length_seqZ in Hnil. simpl in Hnil. lia.
  - intros ->. reflexivity.
Qed.

Lemma Shim_ordinals_up_to_cast_count_witness :
  exists r l,
    Shim.ordinals (EnumClass uint8_t (Some (-3))) = Built r
    /\ Shim.iterate 300 r = Some l
    /\ l = Enumerator <$> seqZ 0 (static_cast uint8_t (-3))
    /\ length l = Z.to_nat (static_cast uint8_t (-3))
    /\ (l = [] <-> static_cast uint8_t (-3) = 0).
Proof.
  apply (Shim_ordinals_up_to_cast_count uint8_t (-3) 300).
  - vm_compute. discriminate.
  - vm_compute. lia.
Defined.

Lemma range_for_overflows cfg u m fuel : forall k,
  is_signed u = true -> 32 <= bits (type_width u) ->
  m < 0 -> 0 <= k <= max_value u ->
  range_for (operator_ne cfg) (operator_deref cfg) (operator_inc cfg u) fuel
    {| e := Enumerator k |} {| e := Enumerator m |} = None.
Proof.
  induction fuel as [|fuel IH]; intros k Hs Hw Hm Hk; [reflexivity|].
  simpl. rewrite operator_ne_values. simpl.
  assert (Hne : (k =? m) = false) by (apply Z.eqb_neq; lia).
  rewrite Hne. simpl.
  destruct (Z.eq_dec k (max_value u)) as [->|Hlt].
  - rewrite operator_inc_at_max, Hs.
    assert (Hwide : (32 <=? bits (type_width u)) = true) by now apply Z.leb_le.
    rewrite Hwide. reflexivity.
  - rewrite operator_inc_next
      by (unfold in_range; pose proof (min_value_nonpos u); lia).
    simpl. rewrite IH by (assumption || lia). reflexivity.
Qed.

(** X13: for a signed underlying type of at least 32 bits and a negative
    count, the C++17 [ordinals] builds, but its loop counts up from 0 to
    the largest value and then overflows: it has no defined result. *)
Theorem Shim_iterate_negative_count_overflows u n fuel :
  is_signed u = true -> 32 <= bits (type_width u) -> static_cast u n < 0 ->
  exists r,
    Shim.ordinals (EnumClass u (Some n)) = Built r
    /\ Shim.iterate fuel r = None.
Proof.
  intros Hs Hw Hm.
  exists {| range_underlying := u; range_count := n |}.
  split; [reflexivity|].
  change (Shim.iterate fuel ?r) with (iterate Cpp17 fuel r).
  rewrite iterate_range_for.
  replace (begin Cpp17 _) with {| e := Enumerator 0 |} by reflexivity.
  replace (end_ Cpp17 _) with {| e := Enumerator (static_cast u n) |}
    by reflexivity.
  cbn [range_underlying].
  apply range_for_overflows; try assumption.
  pose proof (max_value_pos u). lia.
Qed.

Lemma Shim_iterate_negative_count_overflows_witness :
  exists r,
    Shim.ordinals (EnumClass int32_t (Some (-1))) = Built r
    /\ Shim.iterate 50 r = None.
Proof.
  apply (Shim_iterate_negative_count_overflows int32_t (-1) 50).
  - reflexivity.
  - cbn. lia.
  - vm_compute. reflexivity.
Defined.

Lemma range_for_wraps cfg u m fuel : forall k,
  bits (type_width u) < 32 ->
  min_value u <= m -> m < k <= max_value u ->
  (Z.to_nat (max_value u - k + 1 + (m - min_value u)) < fuel)%nat ->
  range_for (operator_ne cfg) (operator_deref cfg) (operator_inc cfg u) fuel
    {| e := Enumerator k |} {| e := Enumerator m |}
  = Some (Enumerator <$>
            (seqZ k (max_value u - k + 1) ++ seqZ (min_value u) (m - min_value u))).
Proof.
  induction fuel as [|fuel IH]; intros k Hw Hm Hk Hfuel; [lia|].
  simpl. rewrite operator_ne_values. simpl.
  assert (Hne : (k =? m) = false) by (apply Z.eqb_neq; lia).
  rewrite Hne. simpl. rewrite operator_deref_value. simpl.
  destruct (Z.eq_dec k (max_value u)) as [->|Hlt].
  - rewrite operator_inc_at_max.
    assert (Hnarrow : (32 <=? bits (type_width u)) = false) by (apply Z.leb_gt; lia).
    rewrite Hnarrow, andb_false_r. simpl.
    rewrite (range_for_span cfg u m fuel (min_value u)) by lia.
    simpl. replace (max_value u - max_value u + 1) with 1 by lia.
    reflexivity.
  - rewrite operator_inc_next
      by (unfold in_range; pose proof (min_value_nonpos u); lia).
    simpl. rewrite IH by (assumption || lia). simpl.
    rewrite (seqZ_cons k) by lia.
    replace (Z.pred (max_value u - k + 1)) with (max_value u - (k + 1) + 1) by lia.
    reflexivity.
Qed.

(** X14: for a signed underlying type narrower than 32 bits and a count
    whose cast [m] is negative, the C++17 loop does end: it yields 0 up to
    the largest value, wraps to the smallest value and goes on up to
    [m - 1], in all [2^bits + m] values. *)
Theorem Shim_iterate_negative_count_wraps u n fuel :
  bits (type_width u) < 32 -> static_cast u n < 0 ->
  (Z.to_nat (modulus u) < fuel)%nat ->
  exists r l,
    Shim.ordinals (EnumClass u (Some n)) = Built r
    /\ Shim.iterate fuel r = Some l
    /\ l = Enumerator <$>
             (seqZ 0 (max_value u + 1)
                ++ seqZ (min_value u) (static_cast u n - min_value u))
    /\ length l = Z.to_nat (modulus u + static_cast u n).
Proof.
  intros Hw Hm Hfuel.
  pose proof (static_cast_in_range u n) as [Hmin Hmax].
  pose proof (range_size u) as Hsz. pose proof (max_value_pos u) as Hpos.
  exists {| range_underlying := u; range_count := n |}. eexists.
  split; [reflexivity|]. split; [|split; [reflexivity|]].
  - change (Shim.iterate fuel ?r) with (iterate Cpp17 fuel r).
    rewrite iterate_range_for.
    replace (begin Cpp17 _) with {| e := Enumerator 0 |} by reflexivity.
    replace (end_ Cpp17 _) with {| e := Enumerator (static_cast u n) |}
      by reflexivity.
    cbn [range_underlying].
    rewrite (range_for_wraps Cpp17 u (static_cast u n) fuel 0) by lia.
    now rewrite Z.sub_0_r.
  - rewrite length_fmap, length_app, !length_seqZ. lia.
Qed.

Lemma Shim_iterate_negative_count_wraps_witness :
  exists r l,
    Shim.ordinals (EnumClass int8_t (Some (-1))) = Built r
    /\ Shim.iterate 300 r = Some l
    /\ l = Enumerator <$>
             (seqZ 0 (max_value int8_t + 1)
                ++ seqZ (min_value int8_t) (static_cast int8_t (-1) - min_value int8_t))
    /\ length l = Z.to_nat (modulus int8_t + static_cast int8_t (-1)).
Proof.
  apply (Shim_iterate_negative_count_wraps int8_t (-1) 300).
  - cbn. lia.
  - vm_compute. reflexivity.
  - vm_compute. lia.
Defined.

(** X15: a single-member family needs no bits, whatever the underlying
    type, the compiler and the evaluation context, and without a loop
    iteration; its range yields the one ordinal 0. *)
Theorem single_member_family cfg cc ev fuel u :
  Shim.bitCount cc ev fuel (EnumClass u (Some 1)) = Built (Some 0)
  /\ Primary.bitCount (EnumClass u (Some 1))
     = (if is_signed u then BuildFails NoMatchingFunction else Built 0)
  /\ exists r,
       ordinals cfg (EnumClass u (Some 1)) = Built r
       /\ iterate cfg (S (S fuel)) r = Some [Enumerator 0].
Proof.
  split; [|split].
  - destruct u as [[] []]; reflexivity.
  - destruct u as [[] []]; reflexivity.
  - exists {| range_underlying := u; range_count := 1 |}.
    split; [destruct cfg; reflexivity|].
    assert (H1 : static_cast u 1 = 1).
    { apply static_cast_id. unfold in_range.
      pose proof (min_value_nonpos u). pose proof (max_value_pos u). lia. }
    rewrite iterate_nonnegative_end; rewrite H1; [reflexivity|lia|lia].
Qed.

(** ** The gates *)

(** X16: [bitCount] builds only for an enumeration with a specialization
    of [ordinalCount] that returns a positive value, that is, only where
    the capability predicate is true; in the C++20 configuration the
    underlying type is moreover unsigned. *)
Theorem bitCount_builds_only_when_capable cfg cc ev fuel t w :
  bitCount cfg cc ev fuel t = Built w ->
  exists u n,
    t = EnumClass u (Some n)
    /\ 0 < n
    /\ ordinalCount cfg t = Built n
    /\ HasOrdinality cfg t = Built true
    /\ (cfg = Cpp20 -> is_signed u = false).
Proof.
  intros Hb. destruct t as [|u [n|]].
  - destruct cfg; discriminate.
  - exists u, n.
    assert (Hn : (0 <? n) = true).
    { destruct (0 <? n) eqn:Hn; [reflexivity|].
      destruct cfg; cbn in Hb; rewrite Hn in Hb; discriminate. }
    split; [reflexivity|]. split; [now apply Z.ltb_lt|].
    split; [destruct cfg; reflexivity|].
    split; [destruct cfg; cbn; now rewrite Hn|].
    intros ->. destruct (is_signed u) eqn:Hs; [|reflexivity].
    unfold bitCount in Hb.
    rewrite Primary_bitCount_signed in Hb; [discriminate|assumption|].
    apply Z.ltb_lt in Hn. lia.
  - destruct cfg; discriminate.
Qed.

Lemma bitCount_builds_only_when_capable_witness :
  exists u n,
    EnumClass uint8_t (Some 5) = EnumClass u (Some n)
    /\ 0 < n
    /\ ordinalCount Cpp20 (EnumClass uint8_t (Some 5)) = Built n
    /\ HasOrdinality Cpp20 (EnumClass uint8_t (Some 5)) = Built true
    /\ (Cpp20 = Cpp20 -> is_signed u = false).
Proof.
  apply (bitCount_builds_only_when_capable Cpp20 GNUC RunTime 0
           (EnumClass uint8_t (Some 5)) (Some 3)).
  reflexivity.
Defined.

(** X17: every use of [ordinals] that the C++20 configuration accepts is
    accepted by the C++17 one with the same range: the family has a
    positive count, both capability predicates are true, and the two
    loops yield the same sequence. *)
Theorem ordinals_cpp20_accepted_by_cpp17 t r :
  ordinals Cpp20 t = Built r ->
  ordinals Cpp17 t = Built r
  /\ t = EnumClass (range_underlying r) (Some (range_count r))
  /\ 0 < range_count r
  /\ HasOrdinality Cpp20 t = Built true
  /\ HasOrdinality Cpp17 t = Built true
  /\ begin Cpp17 r = begin Cpp20 r
  /\ end_ Cpp17 r = end_ Cpp20 r
  /\ (forall fuel, iterate Cpp17 fuel r = iterate Cpp20 fuel r).
Proof.
  intros Hr. destruct t as [|u [n|]]; try discriminate.
  cbn in Hr. destruct (0 <? n) eqn:Hn; [|discriminate].
  cbn in Hr. injection Hr as <-. cbn.
  rewrite Hn. apply Z.ltb_lt in Hn.
  repeat split; try reflexivity; assumption.
Qed.

Lemma ordinals_cpp20_accepted_by_cpp17_witness :
  ordinals Cpp17 (EnumClass uint8_t (Some 5)) = Built five
  /\ EnumClass uint8_t (Some 5)
     = EnumClass (range_underlying five) (Some (range_count five))
  /\ 0 < range_count five
  /\ HasOrdinality Cpp20 (EnumClass uint8_t (Some 5)) = Built true
  /\ HasOrdinality Cpp17 (EnumClass uint8_t (Some 5)) = Built true
  /\ begin Cpp17 five = begin Cpp20 five
  /\ end_ Cpp17 five = end_ Cpp20 five
  /\ (forall fuel, iterate Cpp17 fuel five = iterate Cpp20 fuel five).
Proof.
  apply (ordinals_cpp20_accepted_by_cpp17 (EnumClass uint8_t (Some 5)) five).
  reflexivity.
Defined.

(** X18: the two configurations give [ordinalCount] the same outcome for
    every type and the capability predicate the same outcome for every
    enumeration; for a type that is not an enumeration the concept is
    false while the C++17 variable template cannot be named, so the
    predicate is true in one configuration exactly when it is in the
    other. *)
Theorem configurations_agree_on_capability t :
  ordinalCount Cpp20 t = ordinalCount Cpp17 t
  /\ (is_enum_v t = true -> HasOrdinality Cpp20 t = HasOrdinality Cpp17 t)
  /\ (is_enum_v t = false ->
      HasOrdinality Cpp20 t = Built false
      /\ HasOrdinality Cpp17 t = BuildFails ConstraintFailure)
  /\ (HasOrdinality Cpp20 t = Built true <-> HasOrdinality Cpp17 t = Built true).
Proof.
  destruct t as [|u [n|]]; cbn.
  - repeat split; try reflexivity; discriminate.
  - repeat split; try reflexivity; try discriminate; auto.
  - repeat split; try reflexivity; discriminate.
Qed.

(** ** bitCount across the configurations *)

(** X19: for an unsigned underlying type that holds [N - 1], the C++17
    [bitCount] returns what the C++20 one returns when it is evaluated in
    a constant expression, under either compiler, and also at run time
    under MSVC. *)
Theorem bitCount_cpp17_matches_cpp20 cc ev fuel u N :
  is_signed u = false -> 1 <= N <= 2 ^ 31 -> N - 1 <= max_value u ->
  (64 < fuel)%nat ->
  bitCount Cpp17 cc ConstantEvaluated fuel (EnumClass u (Some N))
  = bitCount Cpp20 cc ev fuel (EnumClass u (Some N))
  /\ bitCount Cpp17 MSVC RunTime fuel (EnumClass u (Some N))
     = bitCount Cpp20 cc ev fuel (EnumClass u (Some N))
  /\ bitCount Cpp20 cc ev fuel (EnumClass u (Some N)) = Built (Some (Z.log2_up N)).
Proof.
  intros Hu HN Hfit Hfuel. unfold bitCount.
  rewrite Primary_bitCount_value by (assumption || lia).
  rewrite Shim_bitCount_constant_evaluated by (assumption || lia).
  rewrite Shim_bitCount_msvc_run_time by (assumption || lia).
  repeat split.
Qed.

Lemma bitCount_cpp17_matches_cpp20_witness :
  bitCount Cpp17 GNUC ConstantEvaluated 65 (EnumClass uint16_t (Some 10000))
  = bitCount Cpp20 GNUC RunTime 65 (EnumClass uint16_t (Some 10000))
  /\ bitCount Cpp17 MSVC RunTime 65 (EnumClass uint16_t (Some 10000))
     = bitCount Cpp20 GNUC RunTime 65 (EnumClass uint16_t (Some 10000))
  /\ bitCount Cpp20 GNUC RunTime 65 (EnumClass uint16_t (Some 10000))
     = Built (Some (Z.log2_up 10000)).
Proof.
  apply (bitCount_cpp17_matches_cpp20 GNUC RunTime 65 uint16_t 10000);
    [reflexivity|lia|cbn; lia|lia].
Defined.
